(** * XlsxUtil: a shallow embedding of [src/lib/xlsx-util.js]

    The static methods of the class [XlsxUtil] are embedded as Rocq functions
    of the same names.

    Data model.
    - A JavaScript string is the list of its UTF-16 code units ([jsstr]);
      [str] turns a literal into that list.
    - A JavaScript number is an IEEE 754 double.  Every number the modelled
      code computes is an integer or an infinity: an integer double is the
      integer of [Z] it denotes, [Infinity] and [-Infinity] are [2^1024] and
      [-2^1024], and the arithmetic of the code rounds as doubles do
      ([js_round]).  Below 2^53 nothing is rounded (column texts of up to 11
      letters, see [numOfColumn_safe_integer]).
    - [undefined] results are [None].
    - The node trees are the ones the XML layer produces: a property the
      code tests for presence is an [option], a property it reads
      unconditionally is a plain field.
    - Arrays that are only built and returned are lists; [createEmptyCells],
      whose rows must not alias, is embedded over an explicit heap of array
      objects.
    - The argument parser of the class [CLI] is embedded too; [Number] and
      [Path.resolve], which it calls, are parameters of its functions. *)

From Stdlib Require Import ZArith Lia Ascii String.
From stdpp Require Import base option list sorting gmap.

Local Open Scope Z_scope.

(** ** Strings *)

(** A UTF-16 code unit. *)
Definition char16 : Type := N.

Definition jsstr : Type := list char16.

Definition str (s : string) : jsstr := map N_of_ascii (list_ascii_of_string s).

(** The characters [String.prototype.trim] strips: WhiteSpace and
    LineTerminator of ECMAScript. *)
Definition is_space (c : char16) : bool :=
  ((9 <=? c) && (c <=? 13) || (c =? 32) || (c =? 160) || (c =? 5760)
   || (8192 <=? c) && (c <=? 8202) || (c =? 8232) || (c =? 8233)
   || (c =? 8239) || (c =? 8287) || (c =? 12288) || (c =? 65279))%N.

(** The class [[0-9]] of the regular expression. *)
Definition is_digit (c : char16) : bool := ((48 <=? c) && (c <=? 57))%N.

(** The letters [A]..[Z]. *)
Definition is_upper (c : char16) : bool := ((65 <=? c) && (c <=? 90))%N.

Fixpoint trimStart (s : jsstr) : jsstr :=
  match s with
  | [] => []
  | c :: s' => if is_space c then trimStart s' else s
  end.

Definition trimEnd (s : jsstr) : jsstr := reverse (trimStart (reverse s)).

(** [text.trim()] *)
Definition trim (s : jsstr) : jsstr := trimEnd (trimStart s).

(** [text.split( '' )]: one string per code unit. *)
Definition split_chars (s : jsstr) : list jsstr := map (fun c => [c]) s.

(** [text.split( sep )] for a separator of one code unit. *)
Fixpoint split_on (sep : char16) (s : jsstr) : list jsstr :=
  match s with
  | [] => [[]]
  | c :: s' =>
      if (c =? sep)%N then [] :: split_on sep s'
      else match split_on sep s' with
           | piece :: pieces => (c :: piece) :: pieces
           | [] => [[c]]
           end
  end.

(** [text.split( /([0-9]+)/ )]: the text is cut at every maximal run of
    digits, and the capture group puts each run into the result, between the
    pieces around it.  [split_digits_piece piece s] scans [s] with [piece] the
    text read since the last run; [split_digits_run run s] is inside a run. *)
Fixpoint split_digits_piece (piece s : jsstr) {struct s} : list jsstr :=
  match s with
  | [] => [piece]
  | c :: s' =>
      if is_digit c then piece :: split_digits_run [c] s'
      else split_digits_piece (piece ++ [c]) s'
  end
with split_digits_run (run s : jsstr) {struct s} : list jsstr :=
  match s with
  | [] => [run; []]
  | c :: s' =>
      if is_digit c then split_digits_run (run ++ [c]) s'
      else run :: split_digits_piece [c] s'
  end.

Definition split_digits (s : jsstr) : list jsstr := split_digits_piece [] s.

(** [arr.indexOf( x )]: the first index holding [x], or -1. *)
Fixpoint indexOf_from {A} `{EqDecision A} (x : A) (l : list A) (i : Z) : Z :=
  match l with
  | [] => -1
  | y :: l' => if decide (y = x) then i else indexOf_from x l' (i + 1)
  end.

Definition indexOf {A} `{EqDecision A} (x : A) (l : list A) : Z :=
  indexOf_from x l 0.

(** [arr[ i ]] for a number [i]: [undefined] out of range. *)
Definition js_index {A} (l : list A) (i : Z) : option A :=
  if i <? 0 then None else l !! Z.to_nat i.

(** [Infinity], written as the least magnitude beyond the doubles. *)
Definition Infinity : Z := 2 ^ 1024.

(** The double nearest to the integer [x].  A double has 53 bits of
    significand: below 2^53 every integer is a double; above, [x] lies
    between two neighbouring doubles [q * 2^e] and [(q + 1) * 2^e] with
    [2^52 <= q < 2^53], the nearer one is taken, and half way the one with
    the even significand.  A magnitude that rounds to 2^1024 or more is the
    infinity. *)
Definition js_round (x : Z) : Z :=
  let a := Z.abs x in
  if a <? 2 ^ 53 then x
  else
    let e := Z.log2 a - 52 in
    let q := a / 2 ^ e in
    let r := a mod 2 ^ e in
    let half := 2 ^ (e - 1) in
    let m :=
      if r <? half then q
      else if half <? r then q + 1
      else if Z.even q then q else q + 1 in
    let y := m * 2 ^ e in
    Z.sgn x * (if Infinity <=? y then Infinity else y).

(** [a * b] and [a + b] on doubles: the exact result, rounded.  (The code
    multiplies by 26 and adds an index between -1 and 26, also to an
    infinity, which stays the infinity; no NaN arises.) *)
Definition js_mul (a b : Z) : Z := js_round (a * b).
Definition js_add (a b : Z) : Z := js_round (a + b).

(** The value of a decimal digit string. *)
Definition decimal (ds : jsstr) : Z :=
  fold_left (fun n c => n * 10 + (Z.of_N c - 48)) ds 0.

Fixpoint leading_digits (s : jsstr) : jsstr :=
  match s with
  | [] => []
  | c :: s' => if is_digit c then c :: leading_digits s' else []
  end.

(** [parseInt( text, 10 )]: leading white space is skipped, a sign is read,
    and the longest prefix of decimal digits is the value, as the double
    nearest to it.  Where JavaScript answers NaN (no digit to read) this
    function answers 0; [getPosition] calls it on a captured run of digits
    only, which has a digit to read ([split_digits_capture]). *)
Definition parseInt10 (text : jsstr) : Z :=
  match trimStart text with
  | c :: s =>
      if (c =? 45)%N then js_round (- decimal (leading_digits s))
      else if (c =? 43)%N then js_round (decimal (leading_digits s))
      else js_round (decimal (leading_digits (c :: s)))
  | [] => 0
  end.

(** ** Column codec *)

Definition letters : list jsstr :=
  [ str ""; str "A"; str "B"; str "C"; str "D"; str "E"; str "F"; str "G";
    str "H"; str "I"; str "J"; str "K"; str "L"; str "M"; str "N"; str "O";
    str "P"; str "Q"; str "R"; str "S"; str "T"; str "U"; str "V"; str "W";
    str "X"; str "Y"; str "Z" ].

Definition numOfColumn (text : jsstr) : Z :=
  let col := split_chars (trim text) in
  fold_left (fun num ch => js_add (js_mul num 26) (indexOf ch letters)) col 0.

(** ** Coordinate parser *)

Record Position := { row : Z; col : Z }.

(** [units[ i ]] of an array of strings, at an index that is in range
    where the code reads it. *)
Definition unit_at (units : list jsstr) (i : Z) : jsstr :=
  default [] (js_index units i).

Definition getPosition (text : jsstr) : Position :=
  let units := split_digits text in
  if Z.of_nat (length units) <? 2 then {| row := 0; col := 0 |}
  else {| row := parseInt10 (unit_at units 1);
          col := numOfColumn (unit_at units 0) |}.

(** ** Cell extractor *)

(** The attribute object [cell.$] of a cell node: the reference [r], read
    unconditionally, and the type code [t], which may be absent. *)
Record CellAttrs := { attr_r : jsstr; attr_t : option jsstr }.

(** A cell node: its attributes [$] and its value nodes [v]. *)
Record CellNode := { cell_attrs : CellAttrs; cell_v : option (list jsstr) }.

(** A row node and its cell nodes [c]. *)
Record RowNode := { row_c : option (list CellNode) }.

(** The record [getCells] pushes: [row], [col], [type], [value]. *)
Record Cell := { cell_row : Z; cell_col : Z; cell_type : jsstr; cell_value : jsstr }.

(** [row.c && 0 < row.c.length] *)
Definition has_cells (r : RowNode) : bool :=
  match row_c r with
  | Some cs => 0 <? Z.of_nat (length cs)
  | None => false
  end.

(** [row.c] of a row that passed the filter. *)
Definition cells_of (r : RowNode) : list CellNode :=
  match row_c r with
  | Some cs => cs
  | None => []
  end.

(** The callback of the inner [forEach]: [cells.push( { ... } )] for one
    cell node. *)
Definition push_cell (cells : list Cell) (cell : CellNode) : list Cell :=
  let position := getPosition (attr_r (cell_attrs cell)) in
  cells ++ [ {| cell_row := row position;
                cell_col := col position;
                cell_type :=
                  match attr_t (cell_attrs cell) with
                  | Some t => if bool_decide (t = []) then [] else t
                  | None => []
                  end;
                cell_value :=
                  match cell_v cell with
                  | Some vs =>
                      if 0 <? Z.of_nat (length vs)
                      then default [] (vs !! 0%nat) else []
                  | None => []
                  end |} ].

(** The callback of the outer [forEach]: [row.c.forEach( ... )]. *)
Definition push_row (cells : list Cell) (r : RowNode) : list Cell :=
  fold_left push_cell (cells_of r) cells.

Definition getCells (rows : list RowNode) : list Cell :=
  fold_left push_row (filter (fun r => has_cells r = true) rows) [].

(** ** Sheet geometry resolver *)

(** [a - b], the comparison function handed to [sort]. *)
Definition ascend (a b : Z) : Z := a - b.

(** [arr.sort( cmp )]: a stable merge sort that puts [a] before [b] when
    [cmp( a, b )] is not positive. *)
Definition sorts_before {A} (cmp : A -> A -> Z) : relation A :=
  fun a b => cmp a b <= 0.

#[global] Instance sorts_before_dec {A} (cmp : A -> A -> Z) :
  RelDecision (sorts_before cmp) := fun a b => decide (cmp a b <= 0).

Definition js_sort {A} (cmp : A -> A -> Z) (l : list A) : list A :=
  merge_sort (sorts_before cmp) l.

(** A dimension node; [dim_ref] is its [$.ref]. *)
Record DimensionNode := { dim_ref : jsstr }.

Record Worksheet := { dimension : option (list DimensionNode) }.

Record Sheet := { worksheet : option Worksheet }.

Record MinMax := { min : option Z; max : option Z }.

Record SheetSize := { size_row : MinMax; size_col : MinMax }.

(** The outcome of a call that may throw. *)
Inductive result (A : Type) : Type :=
| Ok (a : A)
| TypeError.
Arguments Ok {A} a.
Arguments TypeError {A}.

(** [sheet && sheet.worksheet && sheet.worksheet.dimension]: the dimension
    nodes when all three are there. *)
Definition declared_dimension (sheet : option Sheet) : option (list DimensionNode) :=
  match sheet with
  | Some sh =>
      match worksheet sh with
      | Some ws => dimension ws
      | None => None
      end
  | None => None
  end.

(** The second half of [getSheetSize]: the size found from the cells. *)
Definition scan_cells (cells : list Cell) : SheetSize :=
  let rows := js_sort ascend (map cell_row cells) in
  let cols := js_sort ascend (map cell_col cells) in
  {| size_row := {| min := js_index rows 0;
                    max := js_index rows (Z.of_nat (length rows) - 1) |};
     size_col := {| min := js_index cols 0;
                    max := js_index cols (Z.of_nat (length cols) - 1) |} |}.

Definition getSheetSize (sheet : option Sheet) (cells : list Cell) : result SheetSize :=
  match declared_dimension sheet with
  | Some dims =>
      if 0 <=? Z.of_nat (length dims) then
        match js_index dims 0 with
        | None => TypeError
        | Some d =>
            let range := split_on 58%N (dim_ref d) in
            if Z.of_nat (length range) =? 2 then
              let min_pos := getPosition (unit_at range 0) in
              let max_pos := getPosition (unit_at range 1) in
              Ok {| size_row := {| min := Some (row min_pos); max := Some (row max_pos) |};
                    size_col := {| min := Some (col min_pos); max := Some (col max_pos) |} |}
            else Ok (scan_cells cells)
        end
      else Ok (scan_cells cells)
  | None => Ok (scan_cells cells)
  end.

(** ** Rich-text flattener *)

(** The property [_] of an object node, when it has one. *)
Inductive Underscore :=
| UString (s : jsstr)
| UOther.

(** A text node, by what [typeof] says of it: a string, an object (the XML
    layer gives objects with or without the text property [_], and no
    [null]), or a value of another type. *)
Inductive TextNode :=
| TString (s : jsstr)
| TObject (underscore : option Underscore)
| TOther.

(** A run node and its text nodes [t]. *)
Record RunNode := { run_t : option (list TextNode) }.

(** The callback of [t.forEach] in [parseT]: the [switch] on [typeof obj]. *)
Definition append_text (value : jsstr) (obj : TextNode) : jsstr :=
  match obj with
  | TString s => value ++ s
  | TObject (Some (UString s)) => if bool_decide (s = []) then value else value ++ s
  | TObject _ => value
  | TOther => value
  end.

Definition parseT (t : list TextNode) : jsstr := fold_left append_text t [].

(** The callback of [r.forEach] in [parseR]. *)
Definition append_run (value : jsstr) (obj : RunNode) : jsstr :=
  match run_t obj with
  | Some t => value ++ parseT t
  | None => value
  end.

Definition parseR (r : list RunNode) : jsstr := fold_left append_run r [].

(** ** Empty grid builder *)

(** [createEmptyCells] returns an array of arrays.  Arrays are objects: the
    outer array holds references to its rows, and whether two rows are one
    object is part of the result.  The heap maps a location to the contents
    of the array object that lives there. *)
Abbreviation loc := positive (only parsing).

Inductive val :=
| VStr (s : jsstr)
| VRef (l : loc).

Abbreviation heap := (gmap loc (list val)) (only parsing).

(** Computations that read and update the heap. *)
Definition M (A : Type) : Type := heap -> A * heap.

#[global] Instance M_ret : MRet M := fun A a h => (a, h).

#[global] Instance M_bind : MBind M :=
  fun A B k m h => let '(a, h') := m h in k a h'.

(** [[]]: a new, empty array object. *)
Definition new_array : M loc :=
  fun h => let l := fresh (dom h) in (l, <[l := []]> h).

(** [arr.push( x )] *)
Definition push (arr : loc) (x : val) : M unit :=
  fun h => (tt, alter (fun a => a ++ [x]) arr h).

(** [n] rounds of a counting loop that stands at [i]. *)
Fixpoint for_rounds (n : nat) (i : Z) (body : Z -> M unit) : M unit :=
  match n with
  | O => mret tt
  | S n' => body i;; for_rounds n' (i + 1) body
  end.

(** [for( let i = 0; i < bound; ++i ) body] *)
Definition for_lt (bound : Z) (body : Z -> M unit) : M unit :=
  for_rounds (Z.to_nat bound) 0 body.

(** The body of the outer loop: a new row, [cols] empty strings pushed on
    it, and the row pushed on [arr]. *)
Definition push_empty_row (arr : loc) (cols : Z) (i : Z) : M unit :=
  row ← new_array;
  for_lt cols (fun j => push row (VStr []));;
  push arr (VRef row).

Definition createEmptyCells (rows cols : Z) : M loc :=
  arr ← new_array;
  for_lt rows (push_empty_row arr cols);;
  mret arr.

(** The contents of the rows of a matrix, read through the references the
    outer array holds; [None] when [arr] is not such a matrix. *)
Definition read_matrix (h : heap) (arr : loc) : option (list (list val)) :=
  a ← h !! arr;
  mapM (fun x => match x with VRef l => h !! l | VStr _ => None end) a.

(** ** Shared strings *)

(** A property of a string item, in the order in which [Object.keys] lists
    the keys: the key [t] with its text nodes, the key [r] with its run
    nodes, or any other key.  (An object has a key once; the list allows
    more, and what is proved holds for every list.) *)
Inductive StringProperty :=
| KeyT (t : list TextNode)
| KeyR (r : list RunNode)
| KeyOther.

(** The callback of [keys.forEach] in [valueFromStrings]: the [switch] on
    the key. *)
Definition append_property (value : jsstr) (p : StringProperty) : jsstr :=
  match p with
  | KeyT t => value ++ parseT t
  | KeyR r => value ++ parseR r
  | KeyOther => value
  end.

Definition valueFromStrings (item : list StringProperty) : jsstr :=
  fold_left append_property item [].

(** ** Command line (the class [CLI]) *)

(** [Options]: the short and the long spelling of each option. *)
Module Options.
Definition help : jsstr * jsstr := (str "-h", str "--help").
Definition version : jsstr * jsstr := (str "-v", str "--version").
Definition input : jsstr * jsstr := (str "-i", str "--input").
Definition range : jsstr * jsstr := (str "-r", str "--range").
Definition count : jsstr * jsstr := (str "-c", str "--count").

(** What [Object.keys( Options )] runs over. *)
Definition keys : list (jsstr * jsstr) := [help; version; input; range; count].
End Options.

(** [value === names[ 0 ] || value === names[ 1 ]], and the two [case]
    labels of an option in a [switch]. *)
Definition is_option_name (names : jsstr * jsstr) (value : jsstr) : bool :=
  bool_decide (value = fst names) || bool_decide (value = snd names).

Definition _isValue (value : jsstr) : bool :=
  negb (existsb (fun key => is_option_name key value) Options.keys).

(** [null] when there is no argument after [index] or when it is the name
    of an option.  ([argv[ index + 1 ]] is [undefined] only for an index
    below -1, which [forEach] does not give.) *)
Definition _parseArgValue (argv : list jsstr) (index : Z) : option jsstr :=
  if negb (index + 1 <? Z.of_nat (length argv)) then None
  else match js_index argv (index + 1) with
       | Some value => if _isValue value then Some value else None
       | None => None
       end.

(** [{ begin, end }], over the numbers of JavaScript. *)
Record Range (num : Type) := { range_begin : num; range_end : num }.
Arguments range_begin {num} _.
Arguments range_end {num} _.

(** The object [parseArgv] returns.  A property that is not set reads as
    [undefined]: [false] for the flags, [None] for the others. *)
Record CLIOptions (num : Type) := {
  opt_help : bool;
  opt_version : bool;
  opt_input : option jsstr;
  opt_range : option (Range num);
  opt_count : bool
}.
Arguments opt_help {num} _.
Arguments opt_version {num} _.
Arguments opt_input {num} _.
Arguments opt_range {num} _.
Arguments opt_count {num} _.

(** [arr.forEach( ( x, index ) => ... )] with the state the callback
    updates. *)
Fixpoint forEach_from {A S} (f : S -> A -> Z -> S) (l : list A) (index : Z) (s : S) : S :=
  match l with
  | [] => s
  | x :: l' => forEach_from f l' (index + 1) (f s x index)
  end.

Section CommandLine.
(** The numbers of JavaScript with the number 0 and [Number( text )], and
    [Path.resolve( path )], which depends on the working directory, are
    taken as given. *)
Context {num : Type}.
Variable num_zero : num.
Variable toNumber : jsstr -> num.
Variable resolve : jsstr -> jsstr.

Definition _parseRange (arg : option jsstr) : Range num :=
  match arg with
  | None => {| range_begin := num_zero; range_end := num_zero |}
  | Some text =>
      let range := split_on 45%N text in
      if 1 <? Z.of_nat (length range) then
        {| range_begin := toNumber (unit_at range 0);
           range_end := toNumber (unit_at range 1) |}
      else
        {| range_begin := toNumber (unit_at range 0);
           range_end := toNumber (unit_at range 0) |}
  end.

(** [{}], [{ help: true }] and [{ version: true }]. *)
Definition no_options : CLIOptions num :=
  {| opt_help := false; opt_version := false; opt_input := None;
     opt_range := None; opt_count := false |}.

Definition help_only : CLIOptions num :=
  {| opt_help := true; opt_version := false; opt_input := None;
     opt_range := None; opt_count := false |}.

Definition version_only : CLIOptions num :=
  {| opt_help := false; opt_version := true; opt_input := None;
     opt_range := None; opt_count := false |}.

(** [options.input = x], [options.range = x], [options.count = true]. *)
Definition set_input (x : jsstr) (o : CLIOptions num) : CLIOptions num :=
  {| opt_help := opt_help o; opt_version := opt_version o; opt_input := Some x;
     opt_range := opt_range o; opt_count := opt_count o |}.

Definition set_range (x : option (Range num)) (o : CLIOptions num) : CLIOptions num :=
  {| opt_help := opt_help o; opt_version := opt_version o; opt_input := opt_input o;
     opt_range := x; opt_count := opt_count o |}.

Definition set_count (o : CLIOptions num) : CLIOptions num :=
  {| opt_help := opt_help o; opt_version := opt_version o; opt_input := opt_input o;
     opt_range := opt_range o; opt_count := true |}.

(** The callback of [argv.forEach] in [_parseArgv]: the [switch] on the
    argument.  [if( value )] lets neither [null] nor the empty string
    through. *)
Definition parse_arg (argv : list jsstr) (options : CLIOptions num)
    (arg : jsstr) (index : Z) : CLIOptions num :=
  if is_option_name Options.input arg then
    match _parseArgValue argv index with
    | Some value =>
        if bool_decide (value = []) then options
        else set_input (resolve value) options
    | None => options
    end
  else if is_option_name Options.range arg then
    set_range (Some (_parseRange (_parseArgValue argv index))) options
  else if is_option_name Options.count arg then set_count options
  else options.

Definition _parseArgv (argv : list jsstr) : CLIOptions num :=
  let options := forEach_from (parse_arg argv) argv 0 no_options in
  if opt_count options then
    match opt_range options with
    | Some _ => set_range None options
    | None => options
    end
  else
    match opt_range options with
    | Some _ => options
    | None =>
        set_range (Some {| range_begin := num_zero; range_end := num_zero |}) options
    end.

(** [argv] may be [null]. *)
Definition parseArgv (argv : option (list jsstr)) : CLIOptions num :=
  match argv with
  | Some args =>
      if 0 <? Z.of_nat (length args) then
        match js_index args 0 with
        | Some first =>
            if is_option_name Options.help first then help_only
            else if is_option_name Options.version first then version_only
            else _parseArgv args
        | None => _parseArgv args
        end
      else help_only
  | None => help_only
  end.
End CommandLine.

(** ** Specification vocabulary *)

(** Strings made of the letters [A]..[Z] only, and of digits only. *)
Definition all_upper (s : jsstr) : Prop := Forall (fun c => is_upper c = true) s.
Definition all_digits (s : jsstr) : Prop := Forall (fun c => is_digit c = true) s.
Definition no_digit (s : jsstr) : Prop := Forall (fun c => is_digit c = false) s.

(** What may follow a run of digits that the regular expression matched
    to its end: nothing, or a character that is not a digit. *)
Definition starts_without_digit (s : jsstr) : Prop :=
  match s with
  | [] => True
  | c :: _ => is_digit c = false
  end.

(** The digit a character stands for in [numOfColumn]: 1 to 26 for [A] to
    [Z], and what [indexOf] says of any other character. *)
Definition digit_value (c : char16) : Z :=
  if is_upper c then Z.of_N c - 64 else -1.

(** The digit values as the specification words them: 0 for a character
    outside [A]..[Z]. *)
Definition digit_value_zero (c : char16) : Z :=
  if is_upper c then Z.of_N c - 64 else 0.

(** [num = num * 26 + digit], left to right, from 0. *)
Definition accumulate (digit : char16 -> Z) (s : jsstr) : Z :=
  fold_left (fun num c => num * 26 + digit c) s 0.

(** The same accumulation as the code runs it, on doubles. *)
Definition js_accumulate (digit : char16 -> Z) (s : jsstr) : Z :=
  fold_left (fun num c => js_add (js_mul num 26) (digit c)) s 0.

(** The value of a numeral in base 26 with the digits [A] = 1 to [Z] = 26:
    each letter weighs 26 to the number of letters after it. *)
Fixpoint base26 (s : jsstr) : Z :=
  match s with
  | [] => 0
  | c :: s' => (Z.of_N c - 64) * 26 ^ Z.of_nat (length s') + base26 s'
  end.

(** The order of the column names [A], ..., [Z], [AA], [AB], ...: shorter
    names first, names of one length in dictionary order. *)
Fixpoint lex_lt (s t : jsstr) : Prop :=
  match s, t with
  | c :: s', d :: t' => (c < d)%N \/ (c = d /\ lex_lt s' t')
  | _, _ => False
  end.

Definition shortlex_lt (s t : jsstr) : Prop :=
  (length s < length t)%nat \/ (length s = length t /\ lex_lt s t).

(** The value of the smallest numeral of [n] letters, [A...A]. *)
Fixpoint ones26 (n : nat) : Z :=
  match n with
  | O => 0
  | S n' => 26 * ones26 n' + 1
  end.

(** The cell record [getCells] makes of a cell node. *)
Definition cell_of (cell : CellNode) : Cell :=
  {| cell_row := row (getPosition (attr_r (cell_attrs cell)));
     cell_col := col (getPosition (attr_r (cell_attrs cell)));
     cell_type := default [] (attr_t (cell_attrs cell));
     cell_value :=
       match cell_v cell with
       | Some (v0 :: _) => v0
       | _ => []
       end |}.

(** The cells a row node gives. *)
Definition row_cells (r : RowNode) : list Cell :=
  match row_c r with
  | Some cs => map cell_of cs
  | None => []
  end.

(** The text a text node gives: a string itself, an object its string [_],
    anything else nothing. *)
Definition text_of (node : TextNode) : jsstr :=
  match node with
  | TString s => s
  | TObject (Some (UString s)) => s
  | TObject _ => []
  | TOther => []
  end.

(** The text a run node gives. *)
Definition run_text (run : RunNode) : jsstr :=
  match run_t run with
  | Some t => parseT t
  | None => []
  end.

(** [m] is the least, [M] the greatest number of a list. *)
Definition least (l : list Z) (m : Z) : Prop := m ∈ l /\ forall x, x ∈ l -> m <= x.
Definition greatest (l : list Z) (M : Z) : Prop := M ∈ l /\ forall x, x ∈ l -> x <= M.

(** [size] is the box around the cells: on each axis the least and the
    greatest coordinate of a cell. *)
Definition bounding_box (cells : list Cell) (size : SheetSize) : Prop :=
  exists rmin rmax cmin cmax,
    size = {| size_row := {| min := Some rmin; max := Some rmax |};
              size_col := {| min := Some cmin; max := Some cmax |} |} /\
    least (map cell_row cells) rmin /\ greatest (map cell_row cells) rmax /\
    least (map cell_col cells) cmin /\ greatest (map cell_col cells) cmax /\
    rmin <= rmax /\ cmin <= cmax.

(** A sheet whose worksheet declares the one dimension [ref]. *)
Definition sheet_with_dimension (ref : jsstr) : option Sheet :=
  Some {| worksheet := Some {| dimension := Some [ {| dim_ref := ref |} ] |} |}.

(** A cell at a position, with no type and no value. *)
Definition cell_at (r c : Z) : Cell :=
  {| cell_row := r; cell_col := c; cell_type := []; cell_value := [] |}.

(** The row of [n] empty strings. *)
Definition empty_row (n : nat) : list val := replicate n (VStr []).

(** Strings made of white space only. *)
Definition all_space (s : jsstr) : Prop := Forall (fun c => is_space c = true) s.

(** Strings made of the digit [0] only. *)
Definition all_zeros (s : jsstr) : Prop := Forall (fun c => c = 48%N) s.

(** A row number as it is written: digits, the first of them not [0]. *)
Definition canonical_digits (d : jsstr) : Prop :=
  all_digits d /\ exists c d', d = c :: d' /\ c <> 48%N.

(** What a property of a string item gives. *)
Definition property_text (p : StringProperty) : jsstr :=
  match p with
  | KeyT t => parseT t
  | KeyR r => parseR r
  | KeyOther => []
  end.

(** The properties [valueFromStrings] reads. *)
Definition is_text_key (p : StringProperty) : bool :=
  match p with
  | KeyOther => false
  | _ => true
  end.

(** The ten names of options. *)
Definition option_names : list jsstr :=
  [ str "-h"; str "--help"; str "-v"; str "--version"; str "-i"; str "--input";
    str "-r"; str "--range"; str "-c"; str "--count" ].

(** An argument list that [parseArgv] hands to [_parseArgv]: it is not
    empty and does not start with a name of [help] or of [version]. *)
Definition starts_with_no_help (args : list jsstr) : Prop :=
  exists first rest,
    args = first :: rest /\
    is_option_name Options.help first = false /\
    is_option_name Options.version first = false.

(** * Proofs *)

(** ** Characters and trimming *)

Ltac char_cases :=
  repeat match goal with
    | H : context [(?a <=? ?b)%N] |- _ => destruct (N.leb_spec a b); simpl in H; try discriminate H
    | H : context [(?a =? ?b)%N] |- _ => destruct (N.eqb_spec a b); simpl in H; try discriminate H
    end;
  repeat match goal with
    | |- context [(?a <=? ?b)%N] => destruct (N.leb_spec a b); simpl; try lia
    | |- context [(?a =? ?b)%N] => destruct (N.eqb_spec a b); simpl; try lia
    end;
  try reflexivity; try lia.

Lemma upper_not_space c : is_upper c = true -> is_space c = false.
Proof. unfold is_upper, is_space. intros H. char_cases. Qed.

Lemma digit_not_space c : is_digit c = true -> is_space c = false.
Proof. unfold is_digit, is_space. intros H. char_cases. Qed.

Lemma upper_not_digit c : is_upper c = true -> is_digit c = false.
Proof. unfold is_upper, is_digit. intros H. char_cases. Qed.

Lemma all_upper_no_digit s : all_upper s -> no_digit s.
Proof. intros H. eapply Forall_impl; [exact H | apply upper_not_digit]. Qed.

Lemma trimStart_head c s : is_space c = false -> trimStart (c :: s) = c :: s.
Proof. intros H. simpl. now rewrite H. Qed.

Lemma trimStart_no_space s :
  Forall (fun c => is_space c = false) s -> trimStart s = s.
Proof. destruct 1 as [|c s Hc _]; [reflexivity|]. now apply trimStart_head. Qed.

Lemma trim_no_space s : Forall (fun c => is_space c = false) s -> trim s = s.
Proof.
  intros H. unfold trim, trimEnd.
  rewrite (trimStart_no_space s H).
  rewrite trimStart_no_space by now apply Forall_reverse.
  apply reverse_involutive.
Qed.

Lemma trim_all_upper s : all_upper s -> trim s = s.
Proof.
  intros H. apply trim_no_space.
  eapply Forall_impl; [exact H | apply upper_not_space].
Qed.

(** ** Rounding to doubles *)

Lemma Infinity_beyond : 2 ^ 53 <= Infinity.
Proof. unfold Infinity. apply Z.pow_le_mono_r; lia. Qed.

(** Below 2^53 nothing is rounded. *)
Lemma js_round_small x : Z.abs x < 2 ^ 53 -> js_round x = x.
Proof.
  intros H. unfold js_round. cbv zeta.
  destruct (Z.ltb_spec (Z.abs x) (2 ^ 53)); [reflexivity | lia].
Qed.


(** From 2^53 on the rounded number is 2^53 or more. *)
Lemma js_round_large x : 2 ^ 53 <= x -> 2 ^ 53 <= js_round x.
Proof.
  intros Hx. unfold js_round. cbv zeta.
  rewrite Z.abs_eq by lia.
  destruct (Z.ltb_spec x (2 ^ 53)) as [Hlt | _]; [lia|].
  rewrite Z.sgn_pos, Z.mul_1_l by lia.
  assert (53 <= Z.log2 x) as Hlog.
  { rewrite <- (Z.log2_pow2 53) by lia. apply Z.log2_le_mono. lia. }
  pose proof (Z.log2_spec x ltac:(lia)) as [Hlo _].
  set (e := Z.log2 x - 52) in *.
  assert (2 ^ Z.log2 x = 2 ^ e * 2 ^ 52) as Hsplit.
  { rewrite <- Z.pow_add_r by lia. f_equal. lia. }
  assert (2 ^ 1 <= 2 ^ e) as He by (apply Z.pow_le_mono_r; lia).
  set (p := 2 ^ e) in *. change (2 ^ 1) with 2 in He.
  assert (2 ^ 52 <= x / p) as Hq by (apply Z.div_le_lower_bound; lia).
  set (q := x / p) in *.
  set (m := if x mod p <? 2 ^ (e - 1) then q
            else if 2 ^ (e - 1) <? x mod p then q + 1
            else if Z.even q then q else q + 1).
  assert (q <= m) as Hm.
  { unfold m. destruct (_ <? _); [lia|]. destruct (_ <? _); [lia|].
    destruct (Z.even q); lia. }
  assert (2 ^ 53 <= m * p) as Hy.
  { change (2 ^ 53) with (2 ^ 52 * 2). change (2 ^ 52) with 4503599627370496 in *. nia. }
  destruct (Z.leb_spec Infinity (m * p)); [apply Infinity_beyond | assumption].
Qed.

(** Rounding does not cross a number between -2^53 and 2^53. *)
Lemma js_round_ge k x : - 2 ^ 53 < k <= 2 ^ 53 -> k <= x -> k <= js_round x.
Proof.
  intros Hk Hx. destruct (Z.lt_ge_cases (Z.abs x) (2 ^ 53)) as [Hsmall | Hbig].
  - now rewrite js_round_small.
  - assert (2 ^ 53 <= x) as Hlarge by lia.
    pose proof (js_round_large x Hlarge). lia.
Qed.


(** ** The letter table *)

Lemma letters_eq :
  letters =
  [] :: map (fun c => [c])
    [65; 66; 67; 68; 69; 70; 71; 72; 73; 74; 75; 76; 77; 78; 79; 80; 81; 82;
     83; 84; 85; 86; 87; 88; 89; 90]%N.
Proof. reflexivity. Qed.

Lemma indexOf_from_absent {A} `{EqDecision A} (x : A) l i :
  x ∉ l -> indexOf_from x l i = -1.
Proof.
  revert i. induction l as [|y l IH]; intros i Hx; [reflexivity|].
  simpl. apply not_elem_of_cons in Hx as [Hne Hx].
  destruct (decide (y = x)); [congruence | now apply IH].
Qed.

Lemma letters_elem c : [c] ∈ letters -> is_upper c = true.
Proof.
  rewrite letters_eq. intros H.
  apply elem_of_cons in H as [H|H]; [discriminate|].
  apply list_elem_of_fmap in H as (k & [= ->] & Hk).
  repeat (apply elem_of_cons in Hk as [->|Hk]; [reflexivity|]).
  now apply elem_of_nil in Hk.
Qed.

(** [indexOf] on the table is the digit value: the place of a letter in the
    alphabet, and -1 for any other character (the empty string at index 0
    never equals a string of one character). *)
Lemma indexOf_letters c : indexOf [c] letters = digit_value c.
Proof.
  unfold digit_value. destruct (is_upper c) eqn:Hc.
  - assert (exists n, c = N.of_nat n /\ (n < 91)%nat) as (n & -> & Hn).
    { exists (N.to_nat c). unfold is_upper in Hc. split; [lia|]. char_cases. }
    do 91 (destruct n as [|n]; [first [discriminate Hc | reflexivity]|]).
    lia.
  - apply indexOf_from_absent. intros H%letters_elem. congruence.
Qed.

Lemma fold_left_split_chars (f : Z -> jsstr -> Z) s a :
  fold_left f (split_chars s) a = fold_left (fun num c => f num [c]) s a.
Proof. revert a. induction s as [|c s IH]; intros a; simpl; [reflexivity | apply IH]. Qed.

Lemma numOfColumn_js_accumulate text :
  numOfColumn text = js_accumulate digit_value (trim text).
Proof.
  unfold numOfColumn, js_accumulate. rewrite fold_left_split_chars.
  generalize 0. induction (trim text) as [|c s IH]; intros a; simpl; [reflexivity|].
  now rewrite indexOf_letters, IH.
Qed.

(** ** Base 26 *)

Section Accumulate.
Variable digit : char16 -> Z.

Let step (num : Z) (c : char16) : Z := num * 26 + digit c.

Lemma fold26_shift s a :
  fold_left step s a = a * 26 ^ Z.of_nat (length s) + fold_left step s 0.
Proof.
  revert a. induction s as [|c s IH]; intros a.
  - simpl. lia.
  - cbn [fold_left length]. rewrite IH, (IH (step 0 c)). unfold step.
    rewrite Nat2Z.inj_succ, Z.pow_succ_r by lia. ring.
Qed.

Lemma accumulate_cons c s :
  accumulate digit (c :: s) =
  digit c * 26 ^ Z.of_nat (length s) + accumulate digit s.
Proof.
  unfold accumulate. cbn [fold_left]. fold (step 0 c).
  rewrite fold26_shift. unfold step. ring.
Qed.

Lemma accumulate_snoc s c :
  accumulate digit (s ++ [c]) = accumulate digit s * 26 + digit c.
Proof. unfold accumulate. now rewrite fold_left_app. Qed.

Lemma accumulate_app s t :
  accumulate digit (s ++ t) =
  accumulate digit s * 26 ^ Z.of_nat (length t) + accumulate digit t.
Proof. unfold accumulate. now rewrite fold_left_app, fold26_shift. Qed.
End Accumulate.

Lemma digit_value_upper c : is_upper c = true -> digit_value c = Z.of_N c - 64.
Proof. unfold digit_value. now intros ->. Qed.

Lemma upper_range c : is_upper c = true -> 1 <= Z.of_N c - 64 <= 26.
Proof. unfold is_upper. intros H. char_cases. Qed.

Lemma accumulate_base26 s : all_upper s -> accumulate digit_value s = base26 s.
Proof.
  induction 1 as [|c s Hc _ IH]; [reflexivity|].
  rewrite accumulate_cons, IH, digit_value_upper by assumption. reflexivity.
Qed.

Lemma ones26_pow n : 25 * ones26 n = 26 ^ Z.of_nat n - 1.
Proof.
  induction n as [|n IH]; [reflexivity|].
  rewrite Nat2Z.inj_succ, Z.pow_succ_r by lia. cbn [ones26]. lia.
Qed.

Lemma ones26_mono n m : (n <= m)%nat -> ones26 n <= ones26 m.
Proof.
  induction 1 as [|m _ IH]; [lia|].
  cbn [ones26]. pose proof (ones26_pow n). pose proof (ones26_pow m).
  assert (0 < 26 ^ Z.of_nat m) by (apply Z.pow_pos_nonneg; lia). lia.
Qed.

(** A name of [n] letters lies between [A...A] and [Z...Z]. *)
Lemma base26_bounds s :
  all_upper s ->
  ones26 (length s) <= base26 s <= 26 * ones26 (length s).
Proof.
  induction 1 as [|c s Hc _ IH]; [simpl; lia|].
  cbn [base26 length ones26].
  pose proof (upper_range c Hc). pose proof (ones26_pow (length s)).
  set (p := 26 ^ Z.of_nat (length s)) in *.
  assert (0 < p) by (apply Z.pow_pos_nonneg; lia).
  nia.
Qed.

Lemma base26_shorter s t :
  all_upper s -> all_upper t -> (length s < length t)%nat -> base26 s < base26 t.
Proof.
  intros Hs Ht Hlen.
  pose proof (base26_bounds s Hs) as [_ Hhi].
  pose proof (base26_bounds t Ht) as [Hlo _].
  pose proof (ones26_mono (S (length s)) (length t) Hlen) as Hmono.
  cbn [ones26] in Hmono. lia.
Qed.

Lemma base26_lex s t :
  all_upper s -> all_upper t -> length s = length t -> lex_lt s t ->
  base26 s < base26 t.
Proof.
  intros Hs. revert t. induction Hs as [|c s Hc Hs IH]; intros t Ht Hlen Hlex.
  - destruct t; contradiction.
  - destruct Ht as [|d t Hd Ht]; [contradiction|].
    cbn [length] in Hlen. injection Hlen as Hlen.
    cbn [base26]. rewrite <- Hlen.
    pose proof (ones26_pow (length s)).
    set (p := 26 ^ Z.of_nat (length s)) in *.
    destruct Hlex as [Hcd | [-> Hlex]].
    + pose proof (base26_bounds s Hs) as [_ Hhi].
      pose proof (base26_bounds t Ht) as [Hlo _].
      rewrite <- Hlen in Hlo. nia.
    + specialize (IH t Ht Hlen Hlex). lia.
Qed.

(** ** The accumulation on doubles *)

Lemma js_accumulate_snoc digit s c :
  js_accumulate digit (s ++ [c]) =
  js_add (js_mul (js_accumulate digit s) 26) (digit c).
Proof. unfold js_accumulate. now rewrite fold_left_app. Qed.

Lemma digit_value_bound c : -1 <= digit_value c <= 26.
Proof.
  unfold digit_value. destruct (is_upper c) eqn:Hc; [|lia].
  pose proof (upper_range c Hc). lia.
Qed.

Lemma ones26_nonneg n : 0 <= ones26 n.
Proof. pose proof (ones26_mono 0 n ltac:(lia)) as H. exact H. Qed.

Lemma ones26_11 : 26 * ones26 11 < 2 ^ 53.
Proof. vm_compute. reflexivity. Qed.

Lemma accumulate_bound s :
  Z.abs (accumulate digit_value s) <= 26 * ones26 (length s).
Proof.
  induction s as [|c s IH] using rev_ind; [cbn; lia|].
  rewrite accumulate_snoc, length_app. cbn [length]. rewrite Nat.add_1_r.
  cbn [ones26]. pose proof (digit_value_bound c). lia.
Qed.

(** With up to 11 characters no step of the accumulation is rounded. *)
Lemma js_accumulate_exact s :
  (length s <= 11)%nat -> js_accumulate digit_value s = accumulate digit_value s.
Proof.
  induction s as [|c s IH] using rev_ind; intros Hlen; [reflexivity|].
  rewrite length_app in Hlen. cbn [length] in Hlen.
  rewrite js_accumulate_snoc, accumulate_snoc, IH by lia.
  pose proof (accumulate_bound s) as Hb. pose proof (digit_value_bound c) as Hc.
  pose proof (ones26_mono (S (length s)) 11 ltac:(lia)) as Hmono.
  cbn [ones26] in Hmono. pose proof ones26_11 as H11.
  pose proof (ones26_nonneg (length s)).
  unfold js_add, js_mul. rewrite (js_round_small (_ * 26)) by lia.
  apply js_round_small. lia.
Qed.

Lemma base26_snoc s c :
  all_upper s -> is_upper c = true ->
  base26 (s ++ [c]) = base26 s * 26 + (Z.of_N c - 64).
Proof.
  intros Hs Hc.
  assert (all_upper (s ++ [c])) as Hsc.
  { apply Forall_app. split; [assumption | now constructor]. }
  rewrite <- !accumulate_base26 by assumption.
  now rewrite accumulate_snoc, digit_value_upper.
Qed.

(** A name whose value is below 2^53 is accumulated without rounding. *)
Lemma js_accumulate_upper_exact s :
  all_upper s -> base26 s < 2 ^ 53 -> js_accumulate digit_value s = base26 s.
Proof.
  induction s as [|c s IH] using rev_ind; intros Hs Hv; [reflexivity|].
  apply Forall_app in Hs as [Hs Hc]. inversion Hc as [|? ? Hc' _]; subst.
  rewrite base26_snoc in * by assumption.
  pose proof (upper_range c Hc'). pose proof (base26_bounds s Hs) as [Hlo _].
  pose proof (ones26_nonneg (length s)).
  rewrite js_accumulate_snoc, IH, digit_value_upper by (assumption || lia).
  unfold js_add, js_mul. rewrite (js_round_small (_ * 26)) by lia.
  apply js_round_small. lia.
Qed.

Lemma base26_short s :
  all_upper s -> (length s <= 11)%nat -> base26 s < 2 ^ 53.
Proof.
  intros Hs Hlen. pose proof (base26_bounds s Hs) as [_ Hhi].
  pose proof (ones26_mono (length s) 11 Hlen). pose proof ones26_11. lia.
Qed.

(** Up to 11 characters no step of [numOfColumn] rounds. *)
Lemma numOfColumn_accumulate text :
  (length (trim text) <= 11)%nat ->
  numOfColumn text = accumulate digit_value (trim text).
Proof. intros H. rewrite numOfColumn_js_accumulate. now apply js_accumulate_exact. Qed.

Lemma numOfColumn_upper s :
  all_upper s -> base26 s < 2 ^ 53 -> numOfColumn s = base26 s.
Proof.
  intros Hs Hv. rewrite numOfColumn_js_accumulate, trim_all_upper by assumption.
  now apply js_accumulate_upper_exact.
Qed.

(** Up to 11 letters the column number is a safe integer of JavaScript. *)
Lemma numOfColumn_safe_integer s :
  all_upper s -> (length s <= 11)%nat -> 0 <= numOfColumn s < 2 ^ 53.
Proof.
  intros Hs Hlen. pose proof (base26_short s Hs Hlen).
  rewrite numOfColumn_upper by assumption.
  pose proof (base26_bounds s Hs) as [Hlo _]. pose proof (ones26_nonneg (length s)).
  lia.
Qed.

(** A step of the accumulation with a letter, from 0 or more, gives 1 or
    more; with another character, from -1 or less, it gives -27 or less. *)
Lemma js_step_letter a d : 0 <= a -> 1 <= d <= 26 -> 1 <= js_add (js_mul a 26) d.
Proof.
  intros Ha Hd. unfold js_add, js_mul.
  pose proof (js_round_ge 0 (a * 26) ltac:(lia) ltac:(lia)).
  apply js_round_ge; lia.
Qed.


Lemma js_fold_letters s a :
  all_upper s -> 1 <= a ->
  1 <= fold_left (fun num c => js_add (js_mul num 26) (digit_value c)) s a.
Proof.
  intros Hs. revert a. induction Hs as [|c s Hc _ IH]; intros a Ha; [assumption|].
  cbn [fold_left]. apply IH. rewrite digit_value_upper by assumption.
  apply js_step_letter; [lia | now apply upper_range].
Qed.

Lemma js_accumulate_letters s :
  all_upper s -> s <> [] -> 1 <= js_accumulate digit_value s.
Proof.
  intros Hs Hne. destruct Hs as [|c s Hc Hs]; [congruence|].
  unfold js_accumulate. cbn [fold_left]. apply js_fold_letters; [assumption|].
  rewrite digit_value_upper by assumption.
  apply js_step_letter; [lia | now apply upper_range].
Qed.

(** C1, as amended: a character outside [A]..[Z] is not read as the digit
    0.  [indexOf] answers -1 for it, and a text that, white space at its
    ends apart, is one such character gets -1, the number the JSDoc of
    [numOfColumn] names for a text that is not a column; nothing fails. *)
Theorem numOfColumn_other_characters :
  (forall c, is_upper c = false -> indexOf [c] letters = -1) /\
  (forall p c q,
     Forall (fun x => is_space x = true) p ->
     Forall (fun x => is_space x = true) q ->
     is_upper c = false -> is_space c = false ->
     numOfColumn (p ++ [c] ++ q) = -1 /\
     numOfColumn (p ++ [c] ++ q) <> accumulate digit_value_zero [c]).
Proof.
  assert (forall c, is_upper c = false -> indexOf [c] letters = -1) as Hindex.
  { intros c Hc. rewrite indexOf_letters. unfold digit_value. now rewrite Hc. }
  split; [exact Hindex|].
  intros p c q Hp Hq Hc Hsp.
  assert (numOfColumn (p ++ [c] ++ q) = -1) as E.
  { unfold numOfColumn. cbv zeta. unfold trim.
    assert (trimStart (p ++ [c] ++ q) = [c] ++ q) as ->.
    { induction Hp as [|x p Hx _ IH]; cbn [app trimStart].
      - now rewrite Hsp.
      - now rewrite Hx. }
    assert (trimEnd ([c] ++ q) = [c]) as ->.
    { unfold trimEnd. rewrite reverse_app.
      assert (forall r, Forall (fun x => is_space x = true) r ->
                        trimStart (r ++ reverse [c]) = reverse [c]) as Hr.
      { intros r Hr. induction Hr as [|x r Hx _ IH]; cbn [app trimStart].
        - cbn. now rewrite Hsp.
        - now rewrite Hx. }
      rewrite Hr by now apply Forall_reverse. apply reverse_involutive. }
    cbn [split_chars map fold_left]. now rewrite Hindex. }
  split; [exact E|]. rewrite E. unfold accumulate, digit_value_zero. cbn [fold_left].
  rewrite Hc. discriminate.
Qed.

Lemma numOfColumn_other_characters_witness :
  numOfColumn (str " " ++ str "?" ++ str " ") = -1 /\
  numOfColumn (str " " ++ str "?" ++ str " ") <> accumulate digit_value_zero (str "?").
Proof.
  apply (proj2 numOfColumn_other_characters (str " ") 63%N (str " "));
    first [reflexivity | repeat constructor].
Defined.

(** C1, as the specification states it: a lower-case letter does not count
    as the digit 0.  [numOfColumn "a"] is -1, and the accumulation with 0
    in the place of [a] is 0. *)
Lemma numOfColumn_lowercase_not_zero :
  numOfColumn (str "a") = -1 /\
  accumulate digit_value_zero (str "a") = 0 /\
  numOfColumn (str "a") <> accumulate digit_value_zero (str "a").
Proof. repeat split. vm_compute. discriminate. Qed.

(** C4, as amended: on the texts made of [A]..[Z] whose base-26 value, with
    the digits [A] = 1 to [Z] = 26, is below 2^53 (all those of up to 11
    letters), [numOfColumn] is that value, built by [num = num * 26 + digit]
    from left to right; the empty text gives 0; [A], [Z], [AA], [AZ], [BA]
    give 1, 26, 27, 52, 53; and among these texts a name that comes earlier
    in the order of column names (shorter first, then by letters) has the
    smaller number. *)
Theorem numOfColumn_base26 :
  (forall s, all_upper s -> base26 s < 2 ^ 53 -> numOfColumn s = base26 s) /\
  (forall s, all_upper s -> (length s <= 11)%nat -> base26 s < 2 ^ 53) /\
  (forall s c,
     all_upper s -> is_upper c = true -> base26 (s ++ [c]) < 2 ^ 53 ->
     numOfColumn (s ++ [c]) = numOfColumn s * 26 + (Z.of_N c - 64)) /\
  numOfColumn (str "") = 0 /\
  numOfColumn (str "A") = 1 /\
  numOfColumn (str "Z") = 26 /\
  numOfColumn (str "AA") = 27 /\
  numOfColumn (str "AZ") = 52 /\
  numOfColumn (str "BA") = 53 /\
  (forall s t,
     all_upper s -> all_upper t -> base26 t < 2 ^ 53 -> shortlex_lt s t ->
     numOfColumn s < numOfColumn t) /\
  (forall s,
     all_upper s -> (length s <= 11)%nat -> 0 <= numOfColumn s < 2 ^ 53).
Proof.
  split; [exact numOfColumn_upper|].
  split; [exact base26_short|].
  split.
  { intros s c Hs Hc Hv.
    assert (all_upper (s ++ [c])) as Hsc.
    { apply Forall_app. split; [assumption | now constructor]. }
    rewrite base26_snoc in Hv by assumption.
    pose proof (upper_range c Hc). pose proof (base26_bounds s Hs) as [Hlo _].
    pose proof (ones26_nonneg (length s)).
    rewrite (numOfColumn_upper (s ++ [c])), (numOfColumn_upper s)
      by (assumption || rewrite ?base26_snoc by assumption; lia).
    now apply base26_snoc. }
  do 6 (split; [reflexivity|]).
  split; [|exact numOfColumn_safe_integer].
  intros s t Hs Ht Hv Hlt.
  assert (base26 s < base26 t) as Hst.
  { destruct Hlt as [Hlen | [Hlen Hlex]];
      [now apply base26_shorter | now apply base26_lex]. }
  rewrite !numOfColumn_upper by (assumption || lia). exact Hst.
Qed.

Lemma numOfColumn_base26_witness : numOfColumn (str "AZ") < numOfColumn (str "BA").
Proof.
  apply (proj1 (proj2 (proj2 (proj2 (proj2 (proj2 (proj2 (proj2 (proj2 (proj2
           numOfColumn_base26)))))))))).
  - repeat constructor.
  - repeat constructor.
  - vm_compute. reflexivity.
  - right. split; [reflexivity|]. left. reflexivity.
Defined.

(** C4, as the specification states it: beyond 2^53 the order fails.  The
    name of twelve [Z] comes before the name of thirteen [A] in the order
    of column names, and its number, rounded as doubles are, is the
    greater. *)
Lemma numOfColumn_long_names_out_of_order :
  all_upper (str "ZZZZZZZZZZZZ") /\ all_upper (str "AAAAAAAAAAAAA") /\
  shortlex_lt (str "ZZZZZZZZZZZZ") (str "AAAAAAAAAAAAA") /\
  numOfColumn (str "ZZZZZZZZZZZZ") = 99246114928149472 /\
  numOfColumn (str "AAAAAAAAAAAAA") = 99246114928149456 /\
  ~ numOfColumn (str "ZZZZZZZZZZZZ") < numOfColumn (str "AAAAAAAAAAAAA").
Proof.
  split; [repeat constructor|]. split; [repeat constructor|].
  split; [left; cbn; lia|].
  split; [vm_compute; reflexivity|]. split; [vm_compute; reflexivity|].
  vm_compute. discriminate.
Qed.

(** ** Splitting at the runs of digits *)

Lemma split_piece_app piece l rest :
  no_digit l ->
  split_digits_piece piece (l ++ rest) = split_digits_piece (piece ++ l) rest.
Proof.
  intros Hl. revert piece. induction Hl as [|c l Hc _ IH]; intros piece.
  - now rewrite app_nil_r.
  - cbn [app split_digits_piece]. rewrite Hc, IH, <- app_assoc. reflexivity.
Qed.

Lemma split_run_app run d rest :
  all_digits d ->
  split_digits_run run (d ++ rest) = split_digits_run (run ++ d) rest.
Proof.
  intros Hd. revert run. induction Hd as [|c d Hc _ IH]; intros run.
  - now rewrite app_nil_r.
  - cbn [app split_digits_run]. rewrite Hc, IH, <- app_assoc. reflexivity.
Qed.

Lemma split_run_end run rest :
  starts_without_digit rest ->
  exists units, split_digits_run run rest = run :: units.
Proof.
  destruct rest as [|c rest]; simpl; intros H; [now eexists|].
  rewrite H. now eexists.
Qed.

(** A text with no digit is not cut. *)
Lemma split_digits_no_digit text : no_digit text -> split_digits text = [text].
Proof.
  intros H. unfold split_digits.
  pose proof (split_piece_app [] text [] H) as E.
  rewrite app_nil_r in E. exact E.
Qed.

(** The first cut: the text before the first run of digits, then the run. *)
Lemma split_digits_first_run l d rest :
  no_digit l -> all_digits d -> d <> [] -> starts_without_digit rest ->
  exists units, split_digits (l ++ d ++ rest) = l :: d :: units.
Proof.
  intros Hl Hd Hne Hrest. unfold split_digits.
  rewrite split_piece_app by assumption. cbn [app].
  destruct Hd as [|c d Hc Hd]; [congruence|].
  cbn [app split_digits_piece]. rewrite Hc.
  rewrite split_run_app by assumption.
  destruct (split_run_end ([c] ++ d) rest Hrest) as [units ->].
  now exists units.
Qed.

(** Every text either has no digit or has a first run of digits. *)
Lemma first_run_exists text :
  no_digit text \/
  exists l d rest,
    text = l ++ d ++ rest /\ no_digit l /\ all_digits d /\ d <> [] /\
    starts_without_digit rest.
Proof.
  induction text as [|c text IH]; [left; constructor|].
  destruct (is_digit c) eqn:Hc.
  - right. destruct IH as [Hno | (l & d & rest & -> & Hl & Hd & Hne & Hrest)].
    + exists [], [c], text. repeat split; try (repeat constructor; assumption); try discriminate.
      destruct Hno; simpl; auto.
    + destruct l as [|c' l].
      * exists [], (c :: d), rest. repeat split; try assumption;
          try discriminate; repeat constructor; assumption.
      * exists [], [c], ((c' :: l) ++ d ++ rest). repeat split;
          try discriminate; try (repeat constructor; assumption).
        now inversion Hl.
  - destruct IH as [Hno | (l & d & rest & -> & Hl & Hd & Hne & Hrest)].
    + left. now constructor.
    + right. exists (c :: l), d, rest. repeat split; try assumption.
      now constructor.
Qed.

(** What the capture group holds is a run of digits with a digit in it. *)
Lemma split_digits_scan s :
  (forall piece u0 u1 units,
     split_digits_piece piece s = u0 :: u1 :: units -> u1 <> [] /\ all_digits u1) /\
  (forall run u units,
     run <> [] -> all_digits run ->
     split_digits_run run s = u :: units -> u <> [] /\ all_digits u).
Proof.
  induction s as [|c s [IHp IHr]]; split.
  - intros piece u0 u1 units H. discriminate H.
  - intros run u units Hne Hdig [= <- _]. now split.
  - intros piece u0 u1 units. cbn [split_digits_piece].
    destruct (is_digit c) eqn:Hc.
    + intros [= _ H]. apply (IHr [c] u1 units); [discriminate | now repeat constructor | exact H].
    + apply IHp.
  - intros run u units Hne Hdig. cbn [split_digits_run].
    destruct (is_digit c) eqn:Hc.
    + apply IHr.
      * destruct run; [congruence | discriminate].
      * apply Forall_app. split; [assumption | now repeat constructor].
    + intros [= <- _]. now split.
Qed.

Lemma split_digits_capture text u0 u1 units :
  split_digits text = u0 :: u1 :: units -> u1 <> [] /\ all_digits u1.
Proof. apply (proj1 (split_digits_scan text)). Qed.

(** ** parseInt on a run of digits *)

Lemma leading_digits_all d : all_digits d -> leading_digits d = d.
Proof. induction 1 as [|c d Hc _ IH]; simpl; [reflexivity|]. now rewrite Hc, IH. Qed.

Lemma parseInt10_digits d : all_digits d -> parseInt10 d = js_round (decimal d).
Proof.
  intros Hd. unfold parseInt10.
  destruct Hd as [|c d Hc Hd]; [reflexivity|].
  rewrite trimStart_head by now apply digit_not_space.
  assert ((c =? 45)%N = false /\ (c =? 43)%N = false) as [-> ->].
  { unfold is_digit in Hc. split; char_cases. }
  rewrite leading_digits_all by now constructor. reflexivity.
Qed.

(** ** getPosition *)

(** The guard [units.length < 2] by the shape of the array. *)
Lemma getPosition_units text :
  getPosition text =
  match split_digits text with
  | u0 :: u1 :: _ => {| row := parseInt10 u1; col := numOfColumn u0 |}
  | _ => {| row := 0; col := 0 |}
  end.
Proof.
  unfold getPosition. cbv zeta.
  destruct (split_digits text) as [|u0 [|u1 units]]; try reflexivity.
  cbn [length].
  destruct (Z.ltb_spec (Z.of_nat (S (S (length units)))) 2); [lia | reflexivity].
Qed.

Lemma getPosition_no_digit text :
  no_digit text -> getPosition text = {| row := 0; col := 0 |}.
Proof. intros H. now rewrite getPosition_units, split_digits_no_digit. Qed.

Lemma getPosition_first_run l d rest :
  no_digit l -> all_digits d -> d <> [] -> starts_without_digit rest ->
  getPosition (l ++ d ++ rest) =
  {| row := js_round (decimal d); col := numOfColumn l |}.
Proof.
  intros Hl Hd Hne Hrest. rewrite getPosition_units.
  destruct (split_digits_first_run l d rest Hl Hd Hne Hrest) as [units ->].
  now rewrite parseInt10_digits.
Qed.

(** Whenever the guard lets a text through, the row is the decimal value of
    the captured run: [parseInt] has a digit to read. *)
Lemma getPosition_row_decimal text u0 u1 units :
  split_digits text = u0 :: u1 :: units ->
  u1 <> [] /\ all_digits u1 /\
  getPosition text = {| row := js_round (decimal u1); col := numOfColumn u0 |}.
Proof.
  intros H. destruct (split_digits_capture text u0 u1 units H) as [Hne Hd].
  repeat split; try assumption.
  now rewrite getPosition_units, H, parseInt10_digits.
Qed.

Lemma getPosition_letters_digits l d :
  all_upper l -> all_digits d -> d <> [] ->
  getPosition (l ++ d) = {| row := js_round (decimal d); col := numOfColumn l |}.
Proof.
  intros Hl Hd Hne. rewrite <- (app_nil_r d) at 1.
  apply getPosition_first_run; auto using all_upper_no_digit. exact I.
Qed.

Lemma decimal_fold_nonneg d a :
  all_digits d -> 0 <= a ->
  0 <= fold_left (fun n c => n * 10 + (Z.of_N c - 48)) d a.
Proof.
  intros Hd. revert a. induction Hd as [|c d Hc _ IH]; intros a Ha; [assumption|].
  cbn [fold_left]. apply IH. unfold is_digit in Hc.
  assert (48 <= Z.of_N c) by char_cases. lia.
Qed.

Lemma decimal_nonneg d : all_digits d -> 0 <= decimal d.
Proof. intros Hd. unfold decimal. apply decimal_fold_nonneg; [assumption | lia]. Qed.

(** The digits of a row number below 2^53 are read without rounding. *)
Lemma js_round_decimal d :
  all_digits d -> decimal d < 2 ^ 53 -> js_round (decimal d) = decimal d.
Proof.
  intros Hd Hv. apply js_round_small. pose proof (decimal_nonneg d Hd). lia.
Qed.

(** C2, as amended: [getPosition] answers [{row: 0, col: 0}] for every text
    that holds no digit (the empty text and the texts of letters only are
    such).  For every text that holds a digit it answers with the first run
    of digits, read in base 10 as a number of JavaScript (the digits' value
    when this is below 2^53, the double nearest to it otherwise), as the
    row, and [numOfColumn] of what stands before that run as the column; so
    letters followed by digits give [{row: digits, col: numOfColumn
    letters}], and digits alone give [{row: digits, col: 0}].  Every text is
    of one of the two kinds. *)
Theorem getPosition_sentinel_and_split :
  (forall text, no_digit text -> getPosition text = {| row := 0; col := 0 |}) /\
  (forall l d rest,
     no_digit l -> all_digits d -> d <> [] -> starts_without_digit rest ->
     getPosition (l ++ d ++ rest) =
     {| row := js_round (decimal d); col := numOfColumn l |}) /\
  (forall l d,
     all_upper l -> all_digits d -> d <> [] ->
     getPosition (l ++ d) =
     {| row := js_round (decimal d); col := numOfColumn l |}) /\
  (forall d,
     all_digits d -> d <> [] ->
     getPosition d = {| row := js_round (decimal d); col := 0 |}) /\
  (forall d, all_digits d -> decimal d < 2 ^ 53 -> js_round (decimal d) = decimal d) /\
  (forall text,
     no_digit text \/
     exists l d rest,
       text = l ++ d ++ rest /\ no_digit l /\ all_digits d /\ d <> [] /\
       starts_without_digit rest).
Proof.
  split; [exact getPosition_no_digit|].
  split; [exact getPosition_first_run|].
  split; [exact getPosition_letters_digits|].
  split.
  { intros d Hd Hne.
    apply (getPosition_letters_digits [] d); [constructor | assumption..]. }
  split; [exact js_round_decimal | exact first_run_exists].
Qed.

Lemma getPosition_sentinel_and_split_witness :
  getPosition (str "AB") = {| row := 0; col := 0 |} /\
  getPosition (str "AB" ++ str "123") =
    {| row := js_round (decimal (str "123")); col := numOfColumn (str "AB") |} /\
  js_round (decimal (str "123")) = decimal (str "123").
Proof.
  split; [|split].
  - apply (proj1 getPosition_sentinel_and_split). repeat constructor.
  - apply (proj1 (proj2 (proj2 getPosition_sentinel_and_split))).
    + repeat constructor.
    + repeat constructor.
    + discriminate.
  - apply (proj1 (proj2 (proj2 (proj2 (proj2 getPosition_sentinel_and_split))))).
    + repeat constructor.
    + vm_compute. reflexivity.
Defined.

(** C2, as the specification states it: a text of digits only does not get
    the sentinel.  The regular expression cuts ["123"] into [""], ["123"],
    [""], three units, and the answer is [{row: 123, col: 0}]. *)
Lemma getPosition_digits_only_not_sentinel :
  split_digits (str "123") = [str ""; str "123"; str ""] /\
  getPosition (str "123") = {| row := 123; col := 0 |} /\
  getPosition (str "123") <> {| row := 0; col := 0 |}.
Proof. repeat split. vm_compute. discriminate. Qed.

(** C8: for a reference made of one or more letters [A]..[Z] and then one or
    more digits, the column [getPosition] finds is [numOfColumn] of the
    letters. *)
Theorem getPosition_col_numOfColumn l d :
  l <> [] -> all_upper l -> d <> [] -> all_digits d ->
  col (getPosition (l ++ d)) = numOfColumn l.
Proof.
  intros _ Hl Hne Hd. now rewrite getPosition_letters_digits.
Qed.

Lemma getPosition_col_numOfColumn_witness :
  col (getPosition (str "AB" ++ str "1024")) = numOfColumn (str "AB").
Proof.
  apply getPosition_col_numOfColumn;
    [discriminate | repeat constructor | discriminate | repeat constructor].
Defined.

(** ** getCells *)

Lemma push_cell_cell_of cells cell : push_cell cells cell = cells ++ [cell_of cell].
Proof.
  unfold push_cell, cell_of. cbn zeta. do 2 f_equal. f_equal.
  - destruct (attr_t (cell_attrs cell)) as [t|]; [|reflexivity].
    simpl. case_bool_decide; congruence.
  - destruct (cell_v cell) as [[|v0 vs]|]; reflexivity.
Qed.

Lemma push_row_cells cells r :
  has_cells r = true -> push_row cells r = cells ++ row_cells r.
Proof.
  unfold has_cells, push_row, cells_of, row_cells.
  destruct (row_c r) as [cs|]; [intros _ | discriminate].
  revert cells. induction cs as [|cell cs IH]; intros cells.
  - simpl. now rewrite app_nil_r.
  - cbn [fold_left map]. rewrite IH, push_cell_cell_of, <- app_assoc. reflexivity.
Qed.

Lemma row_cells_skipped r : has_cells r = false -> row_cells r = [].
Proof.
  unfold has_cells, row_cells. destruct (row_c r) as [[|cell cs]|]; try reflexivity.
  cbn [length]. intros H. apply Z.ltb_ge in H. exfalso. lia.
Qed.

Lemma getCells_fold rows cells :
  fold_left push_row (filter (fun r => has_cells r = true) rows) cells
  = cells ++ flat_map row_cells rows.
Proof.
  revert cells. induction rows as [|r rows IH]; intros cells.
  - simpl. now rewrite app_nil_r.
  - rewrite filter_cons. cbn [flat_map].
    destruct (decide (has_cells r = true)) as [Hr | Hr].
    + cbn [fold_left]. rewrite IH, push_row_cells, <- app_assoc by assumption.
      reflexivity.
    + rewrite IH. apply not_true_is_false in Hr.
      now rewrite (row_cells_skipped r Hr).
Qed.

Lemma getCells_flat_map rows : getCells rows = flat_map row_cells rows.
Proof. unfold getCells. now rewrite getCells_fold. Qed.

(** C6: [getCells] gives the cells of the rows in the order of the rows, and
    within a row in the order of its cell nodes, one cell per cell node; a
    cell has the row and column [getPosition] finds in the reference [r],
    the type attribute [t] or the empty string, and the first value node or
    the empty string; a row with no cell nodes gives nothing. *)
Theorem getCells_in_order :
  (forall rows, getCells rows = flat_map row_cells rows) /\
  (forall r cs, row_c r = Some cs -> row_cells r = map cell_of cs) /\
  (forall r, row_c r = None \/ row_c r = Some [] -> row_cells r = []) /\
  (forall rows, length (getCells rows) = length (flat_map cells_of rows)) /\
  (forall cell,
     cell_row (cell_of cell) = row (getPosition (attr_r (cell_attrs cell))) /\
     cell_col (cell_of cell) = col (getPosition (attr_r (cell_attrs cell))) /\
     cell_type (cell_of cell) =
       match attr_t (cell_attrs cell) with Some t => t | None => [] end /\
     cell_value (cell_of cell) =
       match cell_v cell with Some (v0 :: _) => v0 | _ => [] end) /\
  getCells
    [ {| row_c := Some [ {| cell_attrs := {| attr_r := str "A1"; attr_t := None |};
                            cell_v := Some [str "x"] |} ] |};
      {| row_c := Some [] |} ]
  = [ {| cell_row := 1; cell_col := 1; cell_type := str ""; cell_value := str "x" |} ].
Proof.
  split; [exact getCells_flat_map|].
  split. { intros r cs H. unfold row_cells. now rewrite H. }
  split. { intros r [H | H]; unfold row_cells; now rewrite H. }
  split.
  { intros rows. rewrite getCells_flat_map.
    induction rows as [|r rows IH]; [reflexivity|].
    cbn [flat_map]. rewrite !length_app, IH. f_equal.
    unfold row_cells, cells_of. destruct (row_c r); [apply length_map | reflexivity]. }
  split; [|reflexivity].
  intros cell. repeat split.
Qed.

Lemma getCells_in_order_witness :
  row_cells {| row_c := Some [] |} = [].
Proof.
  apply (proj1 (proj2 (proj2 getCells_in_order))). right. reflexivity.
Defined.

(** ** parseT and parseR *)

Lemma append_text_text_of value obj : append_text value obj = value ++ text_of obj.
Proof.
  destruct obj as [s | [[s|]|] |]; simpl;
    try reflexivity; try (now rewrite app_nil_r).
  case_bool_decide; [subst; now rewrite app_nil_r | reflexivity].
Qed.

Lemma parseT_fold t value :
  fold_left append_text t value = value ++ concat (map text_of t).
Proof.
  revert value. induction t as [|obj t IH]; intros value.
  - simpl. now rewrite app_nil_r.
  - cbn [fold_left map concat]. now rewrite IH, append_text_text_of, app_assoc.
Qed.

Lemma parseT_concat t : parseT t = concat (map text_of t).
Proof. unfold parseT. now rewrite parseT_fold. Qed.

Lemma append_run_run_text value run : append_run value run = value ++ run_text run.
Proof.
  unfold append_run, run_text. destruct (run_t run); [reflexivity | now rewrite app_nil_r].
Qed.

Lemma parseR_fold r value :
  fold_left append_run r value = value ++ concat (map run_text r).
Proof.
  revert value. induction r as [|run r IH]; intros value.
  - simpl. now rewrite app_nil_r.
  - cbn [fold_left map concat]. now rewrite IH, append_run_run_text, app_assoc.
Qed.

Lemma parseR_concat r : parseR r = concat (map run_text r).
Proof. unfold parseR. now rewrite parseR_fold. Qed.

(** C7: [parseT] is the concatenation, in the order of the nodes, of what
    each text node gives: a string node itself, an object node with a string
    [_] that string, any other node nothing; nothing is trimmed or
    collapsed.  [parseR] is the concatenation, in order, of [parseT] of the
    text nodes of each run that has some; a run without [t] gives nothing.
    The run ["Hello "] followed by the preserved run [" World"] gives
    ["Hello  World"]. *)
Theorem parseT_parseR_concat :
  (forall t, parseT t = concat (map text_of t)) /\
  (forall s, text_of (TString s) = s) /\
  (forall s, text_of (TObject (Some (UString s))) = s) /\
  text_of (TObject (Some UOther)) = [] /\
  text_of (TObject None) = [] /\
  text_of TOther = [] /\
  (forall t1 t2, parseT (t1 ++ t2) = parseT t1 ++ parseT t2) /\
  (forall s, parseT [TString s] = s /\ parseT [TObject (Some (UString s))] = s) /\
  (forall r, parseR r = concat (map run_text r)) /\
  (forall t, run_text {| run_t := Some t |} = parseT t) /\
  run_text {| run_t := None |} = [] /\
  (forall r1 r2, parseR (r1 ++ r2) = parseR r1 ++ parseR r2) /\
  parseR [ {| run_t := Some [TString (str "Hello ")] |};
           {| run_t := Some [TObject (Some (UString (str " World")))] |} ]
  = str "Hello  World".
Proof.
  split; [exact parseT_concat|].
  do 5 (split; [reflexivity|]).
  split. { intros t1 t2. now rewrite !parseT_concat, map_app, concat_app. }
  split. { intros s. rewrite !parseT_concat. simpl. now rewrite app_nil_r. }
  split; [exact parseR_concat|].
  do 2 (split; [reflexivity|]).
  split; [|reflexivity].
  intros r1 r2. now rewrite !parseR_concat, map_app, concat_app.
Qed.

(** ** Splitting at a separator *)

Lemma split_on_absent sep s : sep ∉ s -> split_on sep s = [s].
Proof.
  induction s as [|c s IH]; [reflexivity|].
  intros [Hc Hs]%not_elem_of_cons. cbn [split_on].
  destruct (N.eqb_spec c sep) as [->|_]; [congruence|].
  now rewrite IH.
Qed.

Lemma split_on_first sep a rest :
  sep ∉ a -> split_on sep (a ++ sep :: rest) = a :: split_on sep rest.
Proof.
  induction a as [|c a IH].
  - intros _. cbn [app split_on]. now rewrite N.eqb_refl.
  - intros [Hc Ha]%not_elem_of_cons. cbn [app split_on].
    destruct (N.eqb_spec c sep) as [->|_]; [congruence|].
    now rewrite IH.
Qed.

Lemma split_on_pair sep a b :
  sep ∉ a -> sep ∉ b -> split_on sep (a ++ sep :: b) = [a; b].
Proof. intros Ha Hb. now rewrite split_on_first, split_on_absent. Qed.

(** ** Sorting numbers *)

#[local] Instance ascend_total : Total (sorts_before ascend).
Proof. intros a b. unfold sorts_before, ascend. lia. Qed.

#[local] Instance ascend_transitive : Transitive (sorts_before ascend).
Proof. intros a b c. unfold sorts_before, ascend. lia. Qed.

Lemma js_sort_sorted l : StronglySorted Z.le (js_sort ascend l).
Proof.
  pose proof (StronglySorted_merge_sort (sorts_before ascend) l) as H.
  unfold js_sort. induction H as [|x l' _ IH Hx]; constructor; [exact IH|].
  eapply Forall_impl; [exact Hx|]. unfold sorts_before, ascend. intros; lia.
Qed.

Lemma js_sort_perm l : js_sort ascend l ≡ₚ l.
Proof. apply merge_sort_Permutation. Qed.

(** The first and the last element of the sorted list are the least and the
    greatest element of the list. *)
Lemma js_sort_first_last l :
  l <> [] ->
  exists m M,
    js_index (js_sort ascend l) 0 = Some m /\
    js_index (js_sort ascend l) (Z.of_nat (length (js_sort ascend l)) - 1) = Some M /\
    least l m /\ greatest l M /\ m <= M.
Proof.
  intros Hne.
  pose proof (js_sort_sorted l) as Hsorted. pose proof (js_sort_perm l) as Hperm.
  set (sl := js_sort ascend l) in *.
  assert (sl <> []) as Hsl.
  { intros E. rewrite E in Hperm. apply Permutation_nil in Hperm. congruence. }
  destruct sl as [|m tl] eqn:Esl; [congruence|].
  destruct (exists_last Hsl) as (init & M & Elast).
  exists m, M.
  assert (forall x, x ∈ l -> m <= x) as Hleast.
  { intros x Hx. rewrite <- Hperm in Hx.
    apply StronglySorted_inv in Hsorted as [_ Hall].
    apply elem_of_cons in Hx as [->|Hx]; [lia|].
    rewrite Forall_forall in Hall. now apply Hall. }
  assert (forall x, x ∈ l -> x <= M) as Hgreatest.
  { intros x Hx. rewrite <- Hperm, Elast in Hx.
    apply elem_of_app in Hx as [Hx|Hx].
    - rewrite Elast in Hsorted.
      apply (StronglySorted_app_1_elem_of Z.le init [M] x M Hsorted Hx).
      now left.
    - apply list_elem_of_singleton in Hx. lia. }
  assert (M ∈ l) as HM.
  { rewrite <- Hperm, Elast. apply elem_of_app. right. now left. }
  assert (m ∈ l) as Hm.
  { rewrite <- Hperm. now left. }
  repeat split; try assumption.
  - unfold js_index. replace (Z.of_nat (length (m :: tl)) - 1 <? 0) with false.
    + rewrite Elast, length_app. cbn [length].
      replace (Z.to_nat (Z.of_nat (length init + 1) - 1)) with (length init) by lia.
      now rewrite list_lookup_middle.
    + symmetry. apply Z.ltb_ge. cbn [length]. lia.
  - now apply Hleast.
Qed.

Lemma map_not_nil {A B} (f : A -> B) (l : list A) : l <> [] -> map f l <> [].
Proof. now destruct l. Qed.

Lemma scan_cells_bounding_box cells :
  cells <> [] -> bounding_box cells (scan_cells cells).
Proof.
  intros Hne. unfold scan_cells, bounding_box.
  destruct (js_sort_first_last (map cell_row cells) (map_not_nil _ _ Hne))
    as (rmin & rmax & -> & -> & Hr1 & Hr2 & Hr).
  destruct (js_sort_first_last (map cell_col cells) (map_not_nil _ _ Hne))
    as (cmin & cmax & -> & -> & Hc1 & Hc2 & Hc).
  exists rmin, rmax, cmin, cmax. split; [reflexivity|].
  repeat (split; [assumption|]). assumption.
Qed.

(** ** getSheetSize *)

Lemma getSheetSize_no_dimension sheet cells :
  declared_dimension sheet = None -> getSheetSize sheet cells = Ok (scan_cells cells).
Proof. intros H. unfold getSheetSize. now rewrite H. Qed.

(** With a dimension node at hand the guard [0 <= dimension.length] holds
    and [dimension[ 0 ]] is that node; the split of its [ref] decides. *)
Lemma getSheetSize_declared sheet d ds cells :
  declared_dimension sheet = Some (d :: ds) ->
  getSheetSize sheet cells =
  match split_on 58%N (dim_ref d) with
  | [a; b] =>
      Ok {| size_row := {| min := Some (row (getPosition a));
                           max := Some (row (getPosition b)) |};
            size_col := {| min := Some (col (getPosition a));
                           max := Some (col (getPosition b)) |} |}
  | _ => Ok (scan_cells cells)
  end.
Proof.
  intros Hdim. unfold getSheetSize. rewrite Hdim.
  replace (0 <=? Z.of_nat (length (d :: ds))) with true
    by (symmetry; apply Z.leb_le; lia).
  change (js_index (d :: ds) 0) with (Some d). cbv beta iota zeta.
  destruct (split_on 58%N (dim_ref d)) as [|a [|b [|c range]]]; try reflexivity.
  cbn [length].
  destruct (Z.eqb_spec (Z.of_nat (S (S (S (length range))))) 2) as [E|_];
    [lia | reflexivity].
Qed.

Lemma getSheetSize_other_ref sheet d ds cells :
  declared_dimension sheet = Some (d :: ds) ->
  length (split_on 58%N (dim_ref d)) <> 2%nat ->
  getSheetSize sheet cells = Ok (scan_cells cells).
Proof.
  intros Hdim Hlen. rewrite (getSheetSize_declared sheet d ds cells Hdim).
  destruct (split_on 58%N (dim_ref d)) as [|a [|b [|c range]]];
    try reflexivity.
  now contradict Hlen.
Qed.

(** C3: when the sheet declares a dimension whose reference is two
    references joined by one colon, [getSheetSize] answers, whatever the
    cells are, with the rows and columns [getPosition] finds in the two
    references; the cells are not read.  For the dimension ["B2:D4"] the
    answer is [{row: {min: 2, max: 4}, col: {min: 2, max: 4}}]. *)
Theorem getSheetSize_explicit_dimension :
  (forall sheet d ds a b cells,
     declared_dimension sheet = Some (d :: ds) ->
     dim_ref d = a ++ str ":" ++ b -> 58%N ∉ a -> 58%N ∉ b ->
     getSheetSize sheet cells =
     Ok {| size_row := {| min := Some (row (getPosition a));
                          max := Some (row (getPosition b)) |};
           size_col := {| min := Some (col (getPosition a));
                          max := Some (col (getPosition b)) |} |}) /\
  (forall cells,
     getSheetSize (sheet_with_dimension (str "B2:D4")) cells =
     Ok {| size_row := {| min := Some 2; max := Some 4 |};
           size_col := {| min := Some 2; max := Some 4 |} |}).
Proof.
  assert (forall sheet d ds a b cells,
     declared_dimension sheet = Some (d :: ds) ->
     dim_ref d = a ++ str ":" ++ b -> 58%N ∉ a -> 58%N ∉ b ->
     getSheetSize sheet cells =
     Ok {| size_row := {| min := Some (row (getPosition a));
                          max := Some (row (getPosition b)) |};
           size_col := {| min := Some (col (getPosition a));
                          max := Some (col (getPosition b)) |} |}) as Hpair.
  { intros sheet d ds a b cells Hdim Href Ha Hb.
    rewrite (getSheetSize_declared sheet d ds cells Hdim), Href.
    change (str ":" ++ b) with (58%N :: b).
    now rewrite split_on_pair. }
  split; [exact Hpair|].
  intros cells.
  rewrite (Hpair _ {| dim_ref := str "B2:D4" |} [] (str "B2") (str "D4"));
    try reflexivity.
  - intros H. repeat (apply elem_of_cons in H as [H|H]; [discriminate|]).
    now apply elem_of_nil in H.
  - intros H. repeat (apply elem_of_cons in H as [H|H]; [discriminate|]).
    now apply elem_of_nil in H.
Qed.

Lemma getSheetSize_explicit_dimension_witness :
  getSheetSize (sheet_with_dimension (str "A1:C45")) [cell_at 7 9] =
  Ok {| size_row := {| min := Some (row (getPosition (str "A1")));
                       max := Some (row (getPosition (str "C45"))) |};
        size_col := {| min := Some (col (getPosition (str "A1")));
                       max := Some (col (getPosition (str "C45"))) |} |}.
Proof.
  apply (proj1 getSheetSize_explicit_dimension _ {| dim_ref := str "A1:C45" |} []);
    try reflexivity.
  - intros H. repeat (apply elem_of_cons in H as [H|H]; [discriminate|]).
    now apply elem_of_nil in H.
  - intros H. repeat (apply elem_of_cons in H as [H|H]; [discriminate|]).
    now apply elem_of_nil in H.
Defined.

(** C5: when the sheet declares no dimension and there is a cell,
    [getSheetSize] answers with the least and the greatest row and the
    least and the greatest column of the cells, the first and the last
    element of the sorted rows and columns, and on each axis the minimum is
    not above the maximum.  Cells at (1,1), (5,3) and (2,2) give
    [{row: {min: 1, max: 5}, col: {min: 1, max: 3}}]. *)
Theorem getSheetSize_scans_cells :
  (forall sheet cells,
     declared_dimension sheet = None -> cells <> [] ->
     exists size,
       getSheetSize sheet cells = Ok size /\ size = scan_cells cells /\
       bounding_box cells size) /\
  (forall sheet,
     declared_dimension sheet = None ->
     getSheetSize sheet [cell_at 1 1; cell_at 5 3; cell_at 2 2] =
     Ok {| size_row := {| min := Some 1; max := Some 5 |};
           size_col := {| min := Some 1; max := Some 3 |} |}).
Proof.
  split.
  - intros sheet cells Hdim Hne. exists (scan_cells cells).
    split; [now apply getSheetSize_no_dimension|].
    split; [reflexivity | now apply scan_cells_bounding_box].
  - intros sheet Hdim. now rewrite getSheetSize_no_dimension.
Qed.

Lemma getSheetSize_scans_cells_witness :
  exists size,
    getSheetSize (Some {| worksheet := Some {| dimension := None |} |})
      [cell_at 1 1; cell_at 5 3; cell_at 2 2] = Ok size /\
    size = scan_cells [cell_at 1 1; cell_at 5 3; cell_at 2 2] /\
    bounding_box [cell_at 1 1; cell_at 5 3; cell_at 2 2] size.
Proof.
  apply (proj1 getSheetSize_scans_cells); [reflexivity | discriminate].
Defined.

(** C10: when the sheet declares a dimension whose reference does not split
    at [:] into two parts (a reference without a colon is such),
    [getSheetSize] does not throw and does not use the dimension: it
    answers as for a sheet without a dimension, with the size found from the
    cells, which is the box around them when there is a cell. *)
Theorem getSheetSize_falls_through :
  (forall sheet d ds cells,
     declared_dimension sheet = Some (d :: ds) ->
     length (split_on 58%N (dim_ref d)) <> 2%nat ->
     getSheetSize sheet cells = Ok (scan_cells cells) /\
     getSheetSize sheet cells = getSheetSize None cells /\
     (cells <> [] -> bounding_box cells (scan_cells cells))) /\
  (forall ref, 58%N ∉ ref -> length (split_on 58%N ref) = 1%nat).
Proof.
  split.
  - intros sheet d ds cells Hdim Hlen.
    split; [now apply (getSheetSize_other_ref sheet d ds)|].
    split; [|apply scan_cells_bounding_box].
    rewrite (getSheetSize_other_ref sheet d ds) by assumption.
    now rewrite getSheetSize_no_dimension.
  - intros ref Href. now rewrite split_on_absent.
Qed.

Lemma getSheetSize_falls_through_witness :
  getSheetSize (sheet_with_dimension (str "A1")) [cell_at 3 4; cell_at 1 6] =
    Ok (scan_cells [cell_at 3 4; cell_at 1 6]) /\
  getSheetSize (sheet_with_dimension (str "A1")) [cell_at 3 4; cell_at 1 6] =
    getSheetSize None [cell_at 3 4; cell_at 1 6] /\
  ([cell_at 3 4; cell_at 1 6] <> [] ->
   bounding_box [cell_at 3 4; cell_at 1 6] (scan_cells [cell_at 3 4; cell_at 1 6])).
Proof.
  apply (proj1 getSheetSize_falls_through _ {| dim_ref := str "A1" |} []).
  - reflexivity.
  - vm_compute. discriminate.
Defined.

(** ** createEmptyCells *)

Lemma new_array_fresh (h : heap) : h !! fresh (dom h) = None.
Proof. apply not_elem_of_dom, is_fresh. Qed.

Lemma push_at (h : heap) l a x :
  h !! l = Some a -> push l x h = (tt, <[l := a ++ [x]]> h).
Proof.
  intros Hl. unfold push. f_equal. apply map_eq. intros l'.
  destruct (decide (l = l')) as [<-|Hne].
  - now rewrite lookup_alter_eq, lookup_insert_eq, Hl.
  - now rewrite lookup_alter_ne, lookup_insert_ne.
Qed.

(** The inner loop pushes [n] times onto the one row. *)
Lemma push_rounds n i l x (h : heap) a :
  h !! l = Some a ->
  for_rounds n i (fun _ => push l x) h = (tt, <[l := a ++ replicate n x]> h).
Proof.
  revert i h a. induction n as [|n IH]; intros i h a Hl.
  - cbn. rewrite app_nil_r, insert_id by assumption. reflexivity.
  - cbn [for_rounds]. unfold mbind at 1, M_bind.
    rewrite (push_at h l a x Hl).
    rewrite (IH (i + 1) _ (a ++ [x])) by apply lookup_insert_eq.
    rewrite insert_insert_eq, <- app_assoc. reflexivity.
Qed.

Section Rows.
Variable arr : loc.
Variable cols : Z.

Lemma push_empty_row_round i (h : heap) ls :
  h !! arr = Some (VRef <$> ls) ->
  let row := fresh (dom h) in
  push_empty_row arr cols i h =
  (tt, <[arr := VRef <$> (ls ++ [row])]> (<[row := empty_row (Z.to_nat cols)]> h)).
Proof.
  intros Harr row. pose proof (new_array_fresh h) as Hfresh. fold row in Hfresh.
  assert (row <> arr) as Hne by congruence.
  unfold push_empty_row, new_array, for_lt. unfold mbind at 1, M_bind. fold row.
  unfold mbind at 1, M_bind.
  rewrite (push_rounds _ _ row (VStr []) _ []) by apply lookup_insert_eq.
  rewrite insert_insert_eq. cbn [app]. fold (empty_row (Z.to_nat cols)).
  rewrite (push_at _ arr (VRef <$> ls)) by now rewrite lookup_insert_ne.
  now rewrite fmap_app.
Qed.

(** After [n] rounds the outer array holds [n] more rows, which are new,
    different objects, each a row of empty strings; no other object has
    changed. *)
Lemma rows_rounds n i (h : heap) ls :
  h !! arr = Some (VRef <$> ls) ->
  exists (h' : heap) ls',
    for_rounds n i (push_empty_row arr cols) h = (tt, h') /\
    h' !! arr = Some (VRef <$> (ls ++ ls')) /\
    length ls' = n /\ NoDup ls' /\
    (forall l, l ∈ ls' -> h !! l = None /\ h' !! l = Some (empty_row (Z.to_nat cols))) /\
    (forall l, is_Some (h !! l) -> l <> arr -> h' !! l = h !! l).
Proof.
  revert i h ls. induction n as [|n IH]; intros i h ls Harr.
  - exists h, []. rewrite app_nil_r. repeat split; try assumption.
    + constructor.
    + now apply elem_of_nil in H.
    + now apply elem_of_nil in H.
  - pose proof (push_empty_row_round i h ls Harr) as Hbody. cbv zeta in Hbody.
    pose proof (new_array_fresh h) as Hfresh.
    set (row := fresh (dom h)) in *.
    assert (row <> arr) as Hne by congruence.
    set (h1 := <[arr := VRef <$> (ls ++ [row])]> (<[row := empty_row (Z.to_nat cols)]> h)) in *.
    destruct (IH (i + 1) h1 (ls ++ [row])) as (h' & ls' & Hrun & Harr' & Hlen & Hdup & Hnew & Hold).
    { apply lookup_insert_eq. }
    assert (h1 !! row = Some (empty_row (Z.to_nat cols))) as Hrow1.
    { unfold h1. rewrite lookup_insert_ne by congruence. apply lookup_insert_eq. }
    exists h', (row :: ls').
    split. { cbn [for_rounds]. unfold mbind at 1, M_bind. now rewrite Hbody. }
    split. { now rewrite Harr', <- app_assoc. }
    split. { cbn [length]. now rewrite Hlen. }
    split.
    { constructor; [|assumption]. intros Hin.
      destruct (Hnew row Hin) as [Hnone _]. congruence. }
    split.
    + intros l [->|Hin]%elem_of_cons.
      * split; [assumption|]. rewrite Hold; [assumption | now rewrite Hrow1 | assumption].
      * destruct (Hnew l Hin) as [Hnone Hl]. split; [|assumption].
        unfold h1 in Hnone.
        destruct (decide (arr = l)) as [<-|Hla];
          [now rewrite lookup_insert_eq in Hnone|].
        rewrite lookup_insert_ne in Hnone by assumption.
        destruct (decide (row = l)) as [<-|Hlr];
          [now rewrite lookup_insert_eq in Hnone|].
        now rewrite lookup_insert_ne in Hnone.
    + intros l Hl Hla.
      assert (row <> l) as Hlr by (intros <-; rewrite Hfresh in Hl; now destruct Hl).
      assert (h1 !! l = h !! l) as E.
      { unfold h1. now rewrite !lookup_insert_ne by congruence. }
      rewrite Hold, E; [reflexivity | now rewrite E | assumption].
Qed.
End Rows.

Lemma createEmptyCells_rounds rows cols (h : heap) :
  createEmptyCells rows cols h =
  let arr := fresh (dom h) in
  (arr, snd (for_rounds (Z.to_nat rows) 0 (push_empty_row arr cols) (<[arr := []]> h))).
Proof.
  unfold createEmptyCells. unfold mbind at 1, M_bind. unfold new_array at 1.
  cbv zeta. unfold mbind at 1, M_bind. unfold for_lt at 1.
  now destruct (for_rounds _ _ _ _) as [[] h'].
Qed.

Lemma read_rows (h : heap) ls r :
  (forall l, l ∈ ls -> h !! l = Some r) ->
  mapM (fun x => match x with VRef l => h !! l | VStr _ => None end) (VRef <$> ls)
  = Some (replicate (length ls) r).
Proof.
  induction ls as [|l ls IH]; intros Hall; [reflexivity|].
  cbn [fmap list_fmap mapM length replicate].
  rewrite (Hall l) by now left. cbn.
  rewrite IH by (intros l' Hl'; apply Hall; now right). reflexivity.
Qed.

(** C9: for non-negative [rows] and [cols], run on any heap,
    [createEmptyCells] returns, without an error, a new array that holds
    [rows] references; each is to a new array of [cols] entries, all the
    empty string; the row objects are different from one another and from
    the outer array, so storing new contents in one row leaves every other
    row as it is; no object that was there before is touched. *)
Theorem createEmptyCells_matrix (rows cols : Z) (h : heap) :
  0 <= rows -> 0 <= cols ->
  exists (arr : loc) (h' : heap) (ls : list loc),
    createEmptyCells rows cols h = (arr, h') /\
    h' !! arr = Some (VRef <$> ls) /\
    Z.of_nat (length ls) = rows /\
    (forall l, l ∈ ls ->
       h' !! l = Some (empty_row (Z.to_nat cols)) /\
       Z.of_nat (length (empty_row (Z.to_nat cols))) = cols /\
       Forall (fun x => x = VStr []) (empty_row (Z.to_nat cols))) /\
    read_matrix h' arr = Some (replicate (Z.to_nat rows) (empty_row (Z.to_nat cols))) /\
    NoDup ls /\ (arr ∉ ls) /\
    (forall i k li lk a,
       i <> k -> ls !! i = Some li -> ls !! k = Some lk ->
       li <> lk /\ (<[li := a]> h') !! lk = h' !! lk) /\
    h !! arr = None /\ (forall l, l ∈ ls -> h !! l = None) /\
    (forall l, is_Some (h !! l) -> h' !! l = h !! l).
Proof.
  intros Hrows Hcols.
  pose proof (new_array_fresh h) as Hfresh.
  set (arr := fresh (dom h)) in *.
  destruct (rows_rounds arr cols (Z.to_nat rows) 0 (<[arr := []]> h) [])
    as (h' & ls & Hrun & Harr & Hlen & Hdup & Hnew & Hold).
  { apply lookup_insert_eq. }
  cbn [app] in Harr.
  assert (forall l, l ∈ ls -> h' !! l = Some (empty_row (Z.to_nat cols))) as Hrow.
  { intros l Hl. now destruct (Hnew l Hl). }
  assert (arr ∉ ls) as Hout.
  { intros Hin. destruct (Hnew arr Hin) as [Hnone _].
    now rewrite lookup_insert_eq in Hnone. }
  exists arr, h', ls.
  split.
  { rewrite createEmptyCells_rounds. cbv zeta. fold arr. now rewrite Hrun. }
  split; [assumption|].
  split; [lia|].
  split.
  { intros l Hl. split; [now apply Hrow|]. unfold empty_row.
    rewrite length_replicate. split; [lia|]. apply Forall_replicate. reflexivity. }
  split.
  { unfold read_matrix. rewrite Harr. cbn [mbind option_bind].
    rewrite (read_rows h' ls (empty_row (Z.to_nat cols)) Hrow). now rewrite Hlen. }
  split; [assumption|].
  split; [assumption|].
  split.
  { intros i k li lk a Hik Hi Hk.
    assert (li <> lk) as Hne.
    { intros <-. apply Hik. eapply NoDup_lookup; eassumption. }
    split; [assumption | now rewrite lookup_insert_ne]. }
  split; [assumption|].
  split.
  { intros l Hl. destruct (Hnew l Hl) as [Hnone _].
    rewrite lookup_insert_ne in Hnone; [assumption|]. intros <-. now apply Hout. }
  intros l Hl.
  assert (arr <> l) as Hne by (intros <-; rewrite Hfresh in Hl; now destruct Hl).
  rewrite Hold.
  - now rewrite lookup_insert_ne.
  - now rewrite lookup_insert_ne.
  - congruence.
Qed.

Lemma createEmptyCells_matrix_witness :
  exists (arr : loc) (h' : heap) (ls : list loc),
    createEmptyCells 2 3 ∅ = (arr, h') /\
    h' !! arr = Some (VRef <$> ls) /\
    Z.of_nat (length ls) = 2 /\
    (forall l, l ∈ ls ->
       h' !! l = Some (empty_row (Z.to_nat 3)) /\
       Z.of_nat (length (empty_row (Z.to_nat 3))) = 3 /\
       Forall (fun x => x = VStr []) (empty_row (Z.to_nat 3))) /\
    read_matrix h' arr = Some (replicate (Z.to_nat 2) (empty_row (Z.to_nat 3))) /\
    NoDup ls /\ (arr ∉ ls) /\
    (forall i k li lk a,
       i <> k -> ls !! i = Some li -> ls !! k = Some lk ->
       li <> lk /\ (<[li := a]> h') !! lk = h' !! lk) /\
    (∅ : heap) !! arr = None /\ (forall l, l ∈ ls -> (∅ : heap) !! l = None) /\
    (forall l, is_Some ((∅ : heap) !! l) -> h' !! l = (∅ : heap) !! l).
Proof.
  apply (createEmptyCells_matrix 2 3 ∅); lia.
Defined.


(** * Further properties *)

(** ** numOfColumn: white space, zero, one name per number *)

Lemma trimStart_app_space p s : all_space p -> trimStart (p ++ s) = trimStart s.
Proof. induction 1 as [|c p Hc _ IH]; [reflexivity|]. cbn. now rewrite Hc. Qed.

Lemma trimStart_all_space s : all_space s -> trimStart s = [].
Proof.
  intros H. rewrite <- (app_nil_r s). now rewrite trimStart_app_space.
Qed.

Lemma trimStart_nil_inv s : trimStart s = [] -> all_space s.
Proof.
  induction s as [|c s IH]; [constructor|]. cbn.
  destruct (is_space c) eqn:Hc; [|discriminate].
  intros H. constructor; [assumption | now apply IH].
Qed.

Lemma trimStart_app_keep s q :
  trimStart s <> [] -> trimStart (s ++ q) = trimStart s ++ q.
Proof.
  induction s as [|c s IH]; [intros H; now contradict H|]. cbn.
  destruct (is_space c); [exact IH | reflexivity].
Qed.

Lemma trimEnd_app_space s q : all_space q -> trimEnd (s ++ q) = trimEnd s.
Proof.
  intros Hq. unfold trimEnd. rewrite reverse_app.
  rewrite trimStart_app_space by now apply Forall_reverse. reflexivity.
Qed.

(** White space around a text does not reach the result of [trim]. *)
Lemma trim_surrounded p s q :
  all_space p -> all_space q -> trim (p ++ s ++ q) = trim s.
Proof.
  intros Hp Hq. unfold trim. rewrite trimStart_app_space by assumption.
  destruct (trimStart s) as [|c s'] eqn:Es.
  - rewrite trimStart_all_space; [reflexivity|].
    apply Forall_app. split; [now apply trimStart_nil_inv | assumption].
  - rewrite trimStart_app_keep by congruence.
    rewrite Es. now apply trimEnd_app_space.
Qed.

(** X1: white space before and after the column text is not read. *)
Theorem numOfColumn_ignores_outer_space p s q :
  all_space p -> all_space q -> numOfColumn (p ++ s ++ q) = numOfColumn s.
Proof.
  intros Hp Hq. rewrite !numOfColumn_js_accumulate. now rewrite trim_surrounded.
Qed.

Lemma numOfColumn_ignores_outer_space_witness :
  numOfColumn (str "  " ++ str "AB" ++ [9%N; 10%N]) = numOfColumn (str "AB").
Proof.
  apply numOfColumn_ignores_outer_space; repeat constructor.
Defined.

Lemma lex_lt_trichotomy s t :
  length s = length t -> s = t \/ lex_lt s t \/ lex_lt t s.
Proof.
  revert t. induction s as [|c s IH]; intros [|d t] Hlen; try discriminate.
  - now left.
  - injection Hlen as Hlen. cbn [lex_lt].
    destruct (N.lt_trichotomy c d) as [Hlt | [-> | Hgt]].
    + right. left. now left.
    + destruct (IH t Hlen) as [-> | [Hlt | Hgt]].
      * now left.
      * right. left. right. now split.
      * right. right. right. now split.
    + right. right. now left.
Qed.

Lemma shortlex_trichotomy s t : s = t \/ shortlex_lt s t \/ shortlex_lt t s.
Proof.
  unfold shortlex_lt.
  destruct (Nat.lt_trichotomy (length s) (length t)) as [Hlt | [Heq | Hgt]].
  - right. left. now left.
  - destruct (lex_lt_trichotomy s t Heq) as [-> | [Hlt | Hgt]].
    + now left.
    + right. left. right. now split.
    + right. right. right. now split.
  - right. right. now left.
Qed.

Lemma base26_shortlex s t :
  all_upper s -> all_upper t -> shortlex_lt s t -> base26 s < base26 t.
Proof.
  intros Hs Ht [Hlen | [Hlen Hlex]]; [now apply base26_shorter | now apply base26_lex].
Qed.

Lemma base26_injective s t :
  all_upper s -> all_upper t -> base26 s = base26 t -> s = t.
Proof.
  intros Hs Ht E.
  destruct (shortlex_trichotomy s t) as [-> | [Hlt | Hgt]]; [reflexivity | |].
  - pose proof (base26_shortlex s t Hs Ht Hlt). lia.
  - pose proof (base26_shortlex t s Ht Hs Hgt). lia.
Qed.

(** X2: two names of letters [A]..[Z], of up to 11 letters each (so that
    their numbers are below 2^53 and not rounded), with the same column
    number are the same name. *)
Theorem numOfColumn_injective s t :
  all_upper s -> all_upper t -> (length s <= 11)%nat -> (length t <= 11)%nat ->
  numOfColumn s = numOfColumn t -> s = t.
Proof.
  intros Hs Ht Hls Hlt.
  rewrite !numOfColumn_upper by (assumption || now apply base26_short).
  now apply base26_injective.
Qed.

Lemma numOfColumn_injective_witness : str "B" ++ str "A" = str "BA".
Proof.
  apply numOfColumn_injective;
    [repeat constructor | repeat constructor | cbn; lia | cbn; lia | reflexivity].
Defined.

Lemma base26_onto n : 0 <= n -> exists s, all_upper s /\ base26 s = n.
Proof.
  intros Hn. pattern n. apply Zlt_0_ind; [|exact Hn]. clear n Hn.
  intros n IH Hn.
  destruct (Z.eq_dec n 0) as [-> | Hn0].
  - exists []. split; [constructor | reflexivity].
  - pose proof (Z.div_mod (n - 1) 26 ltac:(lia)) as Hdm.
    pose proof (Z.mod_pos_bound (n - 1) 26 ltac:(lia)) as Hd.
    set (q := (n - 1) / 26) in *. set (d := (n - 1) mod 26) in *.
    assert (0 <= q < n) as Hq by lia.
    destruct (IH q Hq) as (s' & Hs' & Es').
    exists (s' ++ [Z.to_N (65 + d)]).
    assert (is_upper (Z.to_N (65 + d)) = true) as Hc.
    { unfold is_upper. apply andb_true_intro. split; apply N.leb_le; lia. }
    split.
    + apply Forall_app. split; [assumption | now constructor].
    + rewrite base26_snoc, Es' by assumption. rewrite Z2N.id by lia. lia.
Qed.

(** X3: every integer from 0 up to, but not including, 2^53 is the column
    number of a name of letters [A]..[Z]. *)
Theorem numOfColumn_onto n :
  0 <= n < 2 ^ 53 -> exists s, all_upper s /\ numOfColumn s = n.
Proof.
  intros [Hn Hlt]. destruct (base26_onto n Hn) as (s & Hs & Es).
  exists s. split; [assumption|]. rewrite numOfColumn_upper; [assumption.. | lia].
Qed.

Lemma numOfColumn_onto_witness : exists s, all_upper s /\ numOfColumn s = 703.
Proof. apply numOfColumn_onto. lia. Defined.

(** X4: a name of letters [A]..[Z] has the column number 0 only when it is
    empty; every other name has a number from 1 on. *)
Theorem numOfColumn_zero_iff_empty s :
  all_upper s -> (numOfColumn s = 0 <-> s = []) /\ (s <> [] -> 1 <= numOfColumn s).
Proof.
  intros Hs. rewrite numOfColumn_js_accumulate, trim_all_upper by assumption.
  destruct s as [|c s].
  - split; [split; reflexivity | congruence].
  - pose proof (js_accumulate_letters (c :: s) Hs ltac:(discriminate)).
    split; [split; [lia | discriminate] | lia].
Qed.

Lemma numOfColumn_zero_iff_empty_witness :
  (numOfColumn (str "XFD") = 0 <-> str "XFD" = []) /\
  (str "XFD" <> [] -> 1 <= numOfColumn (str "XFD")).
Proof. apply numOfColumn_zero_iff_empty. repeat constructor. Defined.

(** ** getPosition: rows, what is read, one reference per position *)

Lemma digit_range c : is_digit c = true -> 0 <= Z.of_N c - 48 <= 9.
Proof. unfold is_digit. intros H. char_cases. Qed.

Lemma decimal_shift d a :
  fold_left (fun n c => n * 10 + (Z.of_N c - 48)) d a =
  a * 10 ^ Z.of_nat (length d) + decimal d.
Proof.
  unfold decimal. revert a. induction d as [|c d IH]; intros a.
  - simpl. lia.
  - cbn [fold_left length]. rewrite IH, (IH (0 * 10 + _)).
    rewrite Nat2Z.inj_succ, Z.pow_succ_r by lia. ring.
Qed.

Lemma decimal_app d1 d2 :
  decimal (d1 ++ d2) = decimal d1 * 10 ^ Z.of_nat (length d2) + decimal d2.
Proof. unfold decimal at 1. rewrite fold_left_app. apply decimal_shift. Qed.

Lemma decimal_snoc d c : decimal (d ++ [c]) = decimal d * 10 + (Z.of_N c - 48).
Proof. rewrite decimal_app. cbn. lia. Qed.

Lemma decimal_cons c d :
  decimal (c :: d) = (Z.of_N c - 48) * 10 ^ Z.of_nat (length d) + decimal d.
Proof. change (c :: d) with ([c] ++ d). rewrite decimal_app. cbn. lia. Qed.

(** A string of [n] digits is a number from 0 to 10^n - 1. *)
Lemma decimal_bounds d :
  all_digits d -> 0 <= decimal d < 10 ^ Z.of_nat (length d).
Proof.
  induction 1 as [|c d Hc _ IH]; [cbn; lia|].
  rewrite decimal_cons. cbn [length]. rewrite Nat2Z.inj_succ, Z.pow_succ_r by lia.
  pose proof (digit_range c Hc). nia.
Qed.

Lemma decimal_zeros z : all_zeros z -> decimal z = 0.
Proof.
  induction 1 as [|c z -> _ IH]; [reflexivity|]. rewrite decimal_cons, IH. lia.
Qed.

Lemma all_zeros_digits z : all_zeros z -> all_digits z.
Proof. intros H. eapply Forall_impl; [exact H|]. now intros c ->. Qed.

Lemma getPosition_prefix_digits l d :
  no_digit l -> all_digits d -> d <> [] ->
  getPosition (l ++ d) = {| row := js_round (decimal d); col := numOfColumn l |}.
Proof.
  intros Hl Hd Hne.
  pose proof (getPosition_first_run l d [] Hl Hd Hne I) as E.
  now rewrite app_nil_r in E.
Qed.

(** X5: the row [getPosition] answers is never negative, whatever the text;
    for a reference of letters [A]..[Z] followed by digits the column is 1
    or more. *)
Theorem getPosition_row_not_negative :
  (forall text, 0 <= row (getPosition text)) /\
  (forall l d,
     l <> [] -> all_upper l -> d <> [] -> all_digits d ->
     1 <= col (getPosition (l ++ d))).
Proof.
  split.
  - intros text. rewrite getPosition_units.
    destruct (split_digits text) as [|u0 [|u1 units]] eqn:E; cbn [row]; try lia.
    destruct (split_digits_capture text u0 u1 units E) as [_ Hd].
    rewrite parseInt10_digits by assumption.
    apply js_round_ge; [lia | now apply decimal_nonneg].
  - intros l d Hl Hup Hd Hdig. rewrite getPosition_letters_digits by assumption.
    cbn [col]. rewrite numOfColumn_js_accumulate, trim_all_upper by assumption.
    now apply js_accumulate_letters.
Qed.

Lemma getPosition_row_not_negative_witness :
  1 <= col (getPosition (str "C" ++ str "45")).
Proof.
  apply (proj2 getPosition_row_not_negative);
    [discriminate | repeat constructor | discriminate | repeat constructor].
Defined.

(** X6: [getPosition] reads the text up to the end of its first run of
    digits and nothing after it. *)
Theorem getPosition_ignores_rest l d rest :
  no_digit l -> all_digits d -> d <> [] -> starts_without_digit rest ->
  getPosition (l ++ d ++ rest) = getPosition (l ++ d).
Proof.
  intros Hl Hd Hne Hrest. rewrite getPosition_first_run by assumption.
  now rewrite getPosition_prefix_digits.
Qed.

Lemma getPosition_ignores_rest_witness :
  getPosition (str "A" ++ str "1" ++ str ":B2") = getPosition (str "A" ++ str "1").
Proof.
  apply getPosition_ignores_rest;
    [repeat constructor | repeat constructor | discriminate | reflexivity].
Defined.

(** X7: zeros in front of the row digits do not change the position. *)
Theorem getPosition_leading_zeros l z d :
  no_digit l -> all_zeros z -> all_digits d -> d <> [] ->
  getPosition (l ++ z ++ d) = getPosition (l ++ d).
Proof.
  intros Hl Hz Hd Hne.
  assert (all_digits (z ++ d)) as Hzd.
  { apply Forall_app. split; [now apply all_zeros_digits | assumption]. }
  assert (z ++ d <> []) as Hne' by (destruct z; [assumption | discriminate]).
  rewrite !getPosition_prefix_digits by assumption.
  now rewrite decimal_app, decimal_zeros by assumption.
Qed.

Lemma getPosition_leading_zeros_witness :
  getPosition (str "AB" ++ str "00" ++ str "12") = getPosition (str "AB" ++ str "12").
Proof.
  apply getPosition_leading_zeros;
    [repeat constructor | repeat constructor | repeat constructor | discriminate].
Defined.

Lemma canonical_lower_bound d :
  canonical_digits d -> 10 ^ (Z.of_nat (length d) - 1) <= decimal d.
Proof.
  intros [Hd (c & d' & -> & Hc)]. inversion Hd as [|? ? Hdc Hd']; subst.
  rewrite decimal_cons. cbn [length]. rewrite Nat2Z.inj_succ.
  replace (Z.succ (Z.of_nat (length d')) - 1) with (Z.of_nat (length d')) by lia.
  pose proof (digit_range c Hdc). pose proof (decimal_bounds d' Hd').
  assert (1 <= Z.of_N c - 48) by lia.
  assert (0 < 10 ^ Z.of_nat (length d')) by (apply Z.pow_pos_nonneg; lia).
  nia.
Qed.

Lemma canonical_same_length d1 d2 :
  canonical_digits d1 -> canonical_digits d2 -> decimal d1 = decimal d2 ->
  length d1 = length d2.
Proof.
  intros H1 H2 E.
  pose proof (canonical_lower_bound d1 H1). pose proof (canonical_lower_bound d2 H2).
  pose proof (decimal_bounds d1 (proj1 H1)). pose proof (decimal_bounds d2 (proj1 H2)).
  destruct (Nat.lt_trichotomy (length d1) (length d2)) as [Hlt | [Heq | Hgt]];
    [exfalso | assumption | exfalso].
  - assert (10 ^ Z.of_nat (length d1) <= 10 ^ (Z.of_nat (length d2) - 1))
      by (apply Z.pow_le_mono_r; lia).
    lia.
  - assert (10 ^ Z.of_nat (length d2) <= 10 ^ (Z.of_nat (length d1) - 1))
      by (apply Z.pow_le_mono_r; lia).
    lia.
Qed.

Lemma decimal_same_length_injective d1 d2 :
  all_digits d1 -> all_digits d2 -> length d1 = length d2 ->
  decimal d1 = decimal d2 -> d1 = d2.
Proof.
  revert d2. induction d1 as [|c d1 IH] using rev_ind; intros d2 H1 H2 Hlen E.
  - destruct d2; [reflexivity | discriminate].
  - destruct d2 as [|c0 d0] using rev_ind.
    { rewrite length_app in Hlen. cbn in Hlen. lia. }
    clear IHd0.
    apply Forall_app in H1 as [H1 Hc]. apply Forall_app in H2 as [H2 Hc0].
    inversion Hc as [|? ? Hc' _]; subst. inversion Hc0 as [|? ? Hc0' _]; subst.
    rewrite !length_app in Hlen. cbn [length] in Hlen.
    rewrite !decimal_snoc in E.
    pose proof (digit_range c Hc'). pose proof (digit_range c0 Hc0').
    assert (decimal d1 = decimal d0) by lia.
    assert (c = c0) by lia. subst c0.
    f_equal. apply IH; [assumption | assumption | lia | assumption].
Qed.

Lemma decimal_short d :
  all_digits d -> (length d <= 15)%nat -> decimal d < 2 ^ 53.
Proof.
  intros Hd Hlen. pose proof (decimal_bounds d Hd) as [_ Hhi].
  assert (10 ^ Z.of_nat (length d) <= 10 ^ 15) by (apply Z.pow_le_mono_r; lia).
  assert (10 ^ 15 < 2 ^ 53) by (vm_compute; reflexivity). lia.
Qed.

(** X8: two references, each of up to 11 letters [A]..[Z] followed by a row
    number of up to 15 digits without zeros in front (so that neither the
    column nor the row is rounded), that [getPosition] sends to the same
    position are the same reference. *)
Theorem getPosition_injective l1 d1 l2 d2 :
  all_upper l1 -> (length l1 <= 11)%nat ->
  canonical_digits d1 -> (length d1 <= 15)%nat ->
  all_upper l2 -> (length l2 <= 11)%nat ->
  canonical_digits d2 -> (length d2 <= 15)%nat ->
  getPosition (l1 ++ d1) = getPosition (l2 ++ d2) ->
  l1 = l2 /\ d1 = d2.
Proof.
  intros Hl1 Hn1 Hd1 Hm1 Hl2 Hn2 Hd2 Hm2.
  assert (d1 <> [] /\ d2 <> []) as [Hne1 Hne2].
  { destruct Hd1 as [_ (? & ? & -> & _)], Hd2 as [_ (? & ? & -> & _)]. now split. }
  rewrite !getPosition_letters_digits by (assumption || apply Hd1 || apply Hd2).
  rewrite !js_round_decimal
    by (apply Hd1 || apply Hd2 || (apply decimal_short; [apply Hd1 || apply Hd2 | assumption])).
  intros [= Erow Ecol]. split.
  - rewrite !numOfColumn_upper in Ecol by (assumption || now apply base26_short).
    now apply base26_injective.
  - apply decimal_same_length_injective;
      [apply Hd1 | apply Hd2 | now apply canonical_same_length | assumption].
Qed.

Lemma getPosition_injective_witness : str "AB" = str "AB" /\ str "12" = str "12".
Proof.
  apply getPosition_injective;
    first [ reflexivity
          | cbn; lia
          | split; [repeat constructor | eexists _, _; split; [reflexivity | discriminate]]
          | repeat constructor ].
Defined.

(** ** getCells and getSheetSize: order and empty input *)

(** X9: the cells of two lists of rows, one after the other, are the cells
    of the first followed by the cells of the second; rows without cell
    nodes can be left out. *)
Theorem getCells_app :
  (forall rows1 rows2, getCells (rows1 ++ rows2) = getCells rows1 ++ getCells rows2) /\
  (forall rows, getCells (filter (fun r => has_cells r = true) rows) = getCells rows).
Proof.
  split.
  - intros rows1 rows2. rewrite !getCells_flat_map. apply flat_map_app.
  - intros rows. rewrite !getCells_flat_map.
    induction rows as [|r rows IH]; [reflexivity|].
    rewrite filter_cons. destruct (decide (has_cells r = true)) as [Hr | Hr].
    + cbn [flat_map]. now rewrite IH.
    + cbn [flat_map]. apply not_true_is_false in Hr.
      now rewrite IH, (row_cells_skipped r Hr).
Qed.

Lemma js_sort_permutation l1 l2 :
  l1 ≡ₚ l2 -> js_sort ascend l1 = js_sort ascend l2.
Proof.
  intros Hperm.
  apply (StronglySorted_unique Z.le); [apply js_sort_sorted | apply js_sort_sorted |].
  now rewrite !js_sort_perm.
Qed.

Lemma scan_cells_permutation cells1 cells2 :
  cells1 ≡ₚ cells2 -> scan_cells cells1 = scan_cells cells2.
Proof.
  intros Hperm. unfold scan_cells.
  rewrite (js_sort_permutation (map cell_row cells1) (map cell_row cells2))
    by now apply fmap_Permutation.
  rewrite (js_sort_permutation (map cell_col cells1) (map cell_col cells2))
    by now apply fmap_Permutation.
  reflexivity.
Qed.

(** X10: when the size is found from the cells (no dimension is declared),
    the order of the cells does not matter. *)
Theorem getSheetSize_cells_order sheet cells1 cells2 :
  declared_dimension sheet = None -> cells1 ≡ₚ cells2 ->
  getSheetSize sheet cells1 = getSheetSize sheet cells2.
Proof.
  intros Hdim Hperm. rewrite !getSheetSize_no_dimension by assumption.
  now rewrite (scan_cells_permutation cells1 cells2).
Qed.

Lemma getSheetSize_cells_order_witness :
  getSheetSize None [cell_at 1 1; cell_at 5 3; cell_at 2 2] =
  getSheetSize None [cell_at 2 2; cell_at 1 1; cell_at 5 3].
Proof.
  apply getSheetSize_cells_order; [reflexivity|].
  symmetry. apply (Permutation_cons_append [cell_at 1 1; cell_at 5 3] (cell_at 2 2)).
Defined.

(** X11: with no dimension declared and no cell, [getSheetSize] does not
    throw: it answers a size whose four bounds are [undefined]; and the
    bounds found from the cells are [undefined] only when there is no
    cell. *)
Theorem getSheetSize_no_cells sheet :
  declared_dimension sheet = None ->
  getSheetSize sheet [] =
    Ok {| size_row := {| min := None; max := None |};
          size_col := {| min := None; max := None |} |} /\
  (forall cells size,
     getSheetSize sheet cells = Ok size ->
     (min (size_row size) = None <-> cells = []) /\
     (max (size_row size) = None <-> cells = []) /\
     (min (size_col size) = None <-> cells = []) /\
     (max (size_col size) = None <-> cells = [])).
Proof.
  intros Hdim. split; [now rewrite getSheetSize_no_dimension|].
  intros cells size. rewrite getSheetSize_no_dimension by assumption.
  intros [= <-]. destruct cells as [|c cells].
  - repeat split; reflexivity.
  - destruct (scan_cells_bounding_box (c :: cells) ltac:(discriminate))
      as (rmin & rmax & cmin & cmax & -> & _).
    repeat split; discriminate.
Qed.

Lemma getSheetSize_no_cells_witness :
  getSheetSize None [] =
    Ok {| size_row := {| min := None; max := None |};
          size_col := {| min := None; max := None |} |} /\
  (forall cells size,
     getSheetSize None cells = Ok size ->
     (min (size_row size) = None <-> cells = []) /\
     (max (size_row size) = None <-> cells = []) /\
     (min (size_col size) = None <-> cells = []) /\
     (max (size_col size) = None <-> cells = [])).
Proof. apply getSheetSize_no_cells. reflexivity. Defined.

(** ** Flattening text *)

(** A run node that carries the text nodes [t]. *)
Lemma parseR_of_runs tss :
  parseR (map (fun t => {| run_t := Some t |}) tss) = parseT (concat tss).
Proof.
  rewrite parseR_concat, parseT_concat. rewrite map_map. cbn [run_text run_t].
  induction tss as [|t tss IH]; [reflexivity|].
  cbn [map concat]. rewrite IH, map_app, concat_app. now rewrite parseT_concat.
Qed.

(** X12: a text cut into runs flattens to the same string as the text in
    one piece: [parseR] of runs that carry text nodes is [parseT] of all
    their text nodes in order; runs that carry none can be left out. *)
Theorem parseR_runs_as_text :
  (forall tss,
     parseR (map (fun t => {| run_t := Some t |}) tss) = parseT (concat tss)) /\
  (forall r1 r2, parseR (r1 ++ {| run_t := None |} :: r2) = parseR (r1 ++ r2)) /\
  (forall t1 t2 node,
     text_of node = [] -> parseT (t1 ++ node :: t2) = parseT (t1 ++ t2)).
Proof.
  split; [exact parseR_of_runs|]. split.
  - intros r1 r2. rewrite !parseR_concat, !map_app, !concat_app. reflexivity.
  - intros t1 t2 node Hnode.
    rewrite !parseT_concat, !map_app, !concat_app. cbn [map concat].
    now rewrite Hnode.
Qed.

Lemma parseR_runs_as_text_witness :
  parseT ([TString (str "a")] ++ TOther :: [TString (str "b")]) =
  parseT ([TString (str "a")] ++ [TString (str "b")]).
Proof. apply (proj2 (proj2 parseR_runs_as_text)). reflexivity. Defined.

Lemma valueFromStrings_fold item value :
  fold_left append_property item value = value ++ concat (map property_text item).
Proof.
  revert value. induction item as [|p item IH]; intros value.
  - simpl. now rewrite app_nil_r.
  - cbn [fold_left map concat]. rewrite IH, app_assoc. f_equal.
    destruct p; cbn; [reflexivity | reflexivity | now rewrite app_nil_r].
Qed.

Lemma valueFromStrings_concat item :
  valueFromStrings item = concat (map property_text item).
Proof. unfold valueFromStrings. now rewrite valueFromStrings_fold. Qed.

(** X13: [valueFromStrings] joins, in the order of the keys, [parseT] of
    the property [t] and [parseR] of the property [r]; every other key is
    skipped; and a string item written as runs gives the same value as the
    item with all the text nodes under [t]. *)
Theorem valueFromStrings_keys :
  (forall item1 item2,
     valueFromStrings (item1 ++ item2) =
     valueFromStrings item1 ++ valueFromStrings item2) /\
  (forall t, valueFromStrings [KeyT t] = parseT t) /\
  (forall r, valueFromStrings [KeyR r] = parseR r) /\
  (forall item,
     valueFromStrings (filter (fun p => is_text_key p = true) item) =
     valueFromStrings item) /\
  (forall tss,
     valueFromStrings [KeyR (map (fun t => {| run_t := Some t |}) tss)] =
     valueFromStrings [KeyT (concat tss)]).
Proof.
  split.
  { intros item1 item2. now rewrite !valueFromStrings_concat, map_app, concat_app. }
  split. { intros t. rewrite valueFromStrings_concat. cbn. apply app_nil_r. }
  split. { intros r. rewrite valueFromStrings_concat. cbn. apply app_nil_r. }
  split.
  { intros item. rewrite !valueFromStrings_concat.
    induction item as [|p item IH]; [reflexivity|].
    rewrite filter_cons. destruct p; cbn [is_text_key].
    - rewrite decide_True by reflexivity. cbn [map concat]. now rewrite IH.
    - rewrite decide_True by reflexivity. cbn [map concat]. now rewrite IH.
    - rewrite decide_False by discriminate. cbn [map concat]. now rewrite IH. }
  intros tss. rewrite !valueFromStrings_concat. cbn [map concat property_text].
  now rewrite parseR_of_runs.
Qed.

(** ** createEmptyCells: any counts, and one call after another *)

(** What [createEmptyCells] returns for any two integers, on any heap. *)
Lemma createEmptyCells_any rows cols (h : heap) :
  exists (arr : loc) (h' : heap) (ls : list loc),
    createEmptyCells rows cols h = (arr, h') /\
    h' !! arr = Some (VRef <$> ls) /\
    length ls = Z.to_nat rows /\
    (forall l, l ∈ ls -> h' !! l = Some (empty_row (Z.to_nat cols))) /\
    NoDup ls /\ (arr ∉ ls) /\
    h !! arr = None /\ (forall l, l ∈ ls -> h !! l = None) /\
    (forall l, is_Some (h !! l) -> h' !! l = h !! l).
Proof.
  pose proof (new_array_fresh h) as Hfresh.
  set (arr := fresh (dom h)) in *.
  destruct (rows_rounds arr cols (Z.to_nat rows) 0 (<[arr := []]> h) [])
    as (h' & ls & Hrun & Harr & Hlen & Hdup & Hnew & Hold).
  { apply lookup_insert_eq. }
  cbn [app] in Harr.
  assert (arr ∉ ls) as Hout.
  { intros Hin. destruct (Hnew arr Hin) as [Hnone _].
    now rewrite lookup_insert_eq in Hnone. }
  exists arr, h', ls.
  split. { rewrite createEmptyCells_rounds. cbv zeta. fold arr. now rewrite Hrun. }
  split; [assumption|]. split; [assumption|].
  split. { intros l Hl. now destruct (Hnew l Hl). }
  split; [assumption|]. split; [assumption|]. split; [assumption|].
  split.
  { intros l Hl. destruct (Hnew l Hl) as [Hnone _].
    rewrite lookup_insert_ne in Hnone; [assumption|]. intros <-. now apply Hout. }
  intros l Hl.
  assert (arr <> l) as Hne by (intros <-; rewrite Hfresh in Hl; now destruct Hl).
  rewrite Hold; [now rewrite lookup_insert_ne | now rewrite lookup_insert_ne | congruence].
Qed.

(** X14: [createEmptyCells] takes any two integers without an error: a
    count of 0 or less stands for no round of its loop, so [rows <= 0] gives
    an empty matrix and [cols <= 0] gives rows without entries. *)
Theorem createEmptyCells_any_counts rows cols (h : heap) :
  exists (arr : loc) (h' : heap) (ls : list loc),
    createEmptyCells rows cols h = (arr, h') /\
    h' !! arr = Some (VRef <$> ls) /\
    Z.of_nat (length ls) = Z.max 0 rows /\
    (forall l, l ∈ ls ->
       exists entries,
         h' !! l = Some entries /\ Z.of_nat (length entries) = Z.max 0 cols /\
         Forall (fun x => x = VStr []) entries) /\
    (rows <= 0 -> read_matrix h' arr = Some []) /\
    (cols <= 0 -> read_matrix h' arr = Some (replicate (Z.to_nat rows) [])).
Proof.
  destruct (createEmptyCells_any rows cols h)
    as (arr & h' & ls & Hrun & Harr & Hlen & Hrow & _).
  exists arr, h', ls.
  split; [assumption|]. split; [assumption|]. split; [lia|].
  split.
  { intros l Hl. exists (empty_row (Z.to_nat cols)).
    split; [now apply Hrow|]. unfold empty_row. rewrite length_replicate.
    split; [lia | now apply Forall_replicate]. }
  assert (read_matrix h' arr =
          Some (replicate (Z.to_nat rows) (empty_row (Z.to_nat cols)))) as Hread.
  { unfold read_matrix. rewrite Harr. cbn [mbind option_bind].
    rewrite (read_rows h' ls (empty_row (Z.to_nat cols)) Hrow). now rewrite Hlen. }
  split.
  - intros Hrows. rewrite Hread. now replace (Z.to_nat rows) with 0%nat by lia.
  - intros Hcols. rewrite Hread. now replace (Z.to_nat cols) with 0%nat by lia.
Qed.

Lemma createEmptyCells_any_counts_witness :
  exists (arr : loc) (h' : gmap loc (list val)) (ls : list loc),
    createEmptyCells (-2) 3 ∅ = (arr, h') /\
    h' !! arr = Some (VRef <$> ls) /\
    Z.of_nat (length ls) = Z.max 0 (-2) /\
    (forall l, l ∈ ls ->
       exists entries,
         h' !! l = Some entries /\ Z.of_nat (length entries) = Z.max 0 3 /\
         Forall (fun x => x = VStr []) entries) /\
    (-2 <= 0 -> read_matrix h' arr = Some []) /\
    (3 <= 0 -> read_matrix h' arr = Some (replicate (Z.to_nat (-2)) [])).
Proof. apply (createEmptyCells_any_counts (-2) 3 ∅). Defined.

(** X15: two calls, the second on the heap the first has left, return
    matrices that share nothing: the outer arrays are two objects, no row of
    one is a row of the other, and the first matrix reads after the second
    call as it did before. *)
Theorem createEmptyCells_twice rows1 cols1 rows2 cols2 (h : heap) :
  exists (arr1 arr2 : loc) (h1 h2 : heap) (ls1 ls2 : list loc),
    createEmptyCells rows1 cols1 h = (arr1, h1) /\
    createEmptyCells rows2 cols2 h1 = (arr2, h2) /\
    h1 !! arr1 = Some (VRef <$> ls1) /\ h2 !! arr2 = Some (VRef <$> ls2) /\
    arr1 <> arr2 /\ (arr1 ∉ ls2) /\ (arr2 ∉ ls1) /\
    (forall l, l ∈ ls1 -> l ∉ ls2) /\
    read_matrix h2 arr1 = read_matrix h1 arr1.
Proof.
  destruct (createEmptyCells_any rows1 cols1 h)
    as (arr1 & h1 & ls1 & Hrun1 & Harr1 & Hlen1 & Hrow1 & _ & Hout1 & _).
  destruct (createEmptyCells_any rows2 cols2 h1)
    as (arr2 & h2 & ls2 & Hrun2 & Harr2 & Hlen2 & Hrow2 & _ & Hout2 & Hnew2 & Hnews2 & Hold2).
  exists arr1, arr2, h1, h2, ls1, ls2.
  split; [assumption|]. split; [assumption|].
  split; [assumption|]. split; [assumption|].
  split. { intros <-. now rewrite Harr1 in Hnew2. }
  split. { intros Hin. specialize (Hnews2 arr1 Hin). now rewrite Harr1 in Hnews2. }
  split. { intros Hin. specialize (Hrow1 arr2 Hin). now rewrite Hrow1 in Hnew2. }
  split.
  { intros l Hl1 Hl2. specialize (Hnews2 l Hl2). now rewrite (Hrow1 l Hl1) in Hnews2. }
  assert (forall l, l ∈ ls1 -> h2 !! l = Some (empty_row (Z.to_nat cols1))) as Hrow1'.
  { intros l Hl. rewrite Hold2 by (rewrite (Hrow1 l Hl); eauto). now apply Hrow1. }
  unfold read_matrix. rewrite Hold2 by (rewrite Harr1; eauto). rewrite Harr1.
  cbn [mbind option_bind].
  now rewrite (read_rows h1 ls1 _ Hrow1), (read_rows h2 ls1 _ Hrow1').
Qed.

(** ** Command line: names of options and their values *)

Lemma is_option_name_true names value :
  is_option_name names value = true <-> value = fst names \/ value = snd names.
Proof.
  unfold is_option_name. rewrite orb_true_iff, !bool_decide_eq_true. reflexivity.
Qed.

Ltac in_list := repeat first [now left | right].

Ltac with_key key :=
  exists key; split; [unfold Options.keys; in_list | reflexivity].

Lemma option_names_keys value :
  value ∈ option_names <->
  exists key, key ∈ Options.keys /\ is_option_name key value = true.
Proof.
  split.
  - unfold option_names. intros H.
    repeat (apply elem_of_cons in H as [-> | H];
            [first [ with_key Options.help | with_key Options.version
                   | with_key Options.input | with_key Options.range
                   | with_key Options.count ] |]).
    now apply elem_of_nil in H.
  - intros (key & Hkey & Hname). apply is_option_name_true in Hname.
    unfold Options.keys in Hkey.
    repeat (apply elem_of_cons in Hkey as [-> | Hkey];
            [destruct Hname as [-> | ->]; unfold option_names; in_list |]).
    now apply elem_of_nil in Hkey.
Qed.

Lemma _isValue_false value : _isValue value = false <-> value ∈ option_names.
Proof.
  unfold _isValue. rewrite negb_false_iff, existsb_exists, option_names_keys.
  split; intros (key & Hkey & Hname); exists key; (split; [|assumption]).
  - now apply list_elem_of_In.
  - now apply list_elem_of_In.
Qed.

Lemma _isValue_true value : _isValue value = true <-> value ∉ option_names.
Proof.
  rewrite <- _isValue_false. destruct (_isValue value); split; congruence.
Qed.

(** X16: [_isValue] turns down the ten names of options, [-h], [--help],
    [-v], [--version], [-i], [--input], [-r], [--range], [-c], [--count],
    and nothing else: every other text, the empty string too, is a
    value. *)
Theorem _isValue_option_names :
  (forall value, _isValue value = false <-> value ∈ option_names) /\
  (forall value, _isValue value = true <-> value ∉ option_names) /\
  _isValue (str "") = true.
Proof.
  split; [exact _isValue_false|]. split; [exact _isValue_true | reflexivity].
Qed.

Lemma js_index_nat {A} (l : list A) (i : Z) :
  0 <= i -> js_index l i = l !! Z.to_nat i.
Proof.
  intros Hi. unfold js_index.
  destruct (Z.ltb_spec i 0); [lia | reflexivity].
Qed.

Lemma _parseArgValue_Some argv index value :
  0 <= index ->
  (_parseArgValue argv index = Some value <->
   argv !! (Z.to_nat index + 1)%nat = Some value /\ value ∉ option_names).
Proof.
  intros Hindex. unfold _parseArgValue.
  rewrite js_index_nat by lia.
  replace (Z.to_nat (index + 1)) with (Z.to_nat index + 1)%nat by lia.
  destruct (Z.ltb_spec (index + 1) (Z.of_nat (length argv))) as [Hlt | Hge]; cbn [negb].
  - destruct (argv !! (Z.to_nat index + 1)%nat) as [next|] eqn:Enext.
    + destruct (_isValue next) eqn:Ev.
      * apply _isValue_true in Ev. split; [intros [= <-]; now split | now intros [[= <-] _]].
      * apply _isValue_false in Ev. split; [discriminate | intros [[= <-] Hno]; contradiction].
    + split; [discriminate | now intros [? _]].
  - split; [discriminate|]. intros [Hnext _].
    apply lookup_lt_Some in Hnext. lia.
Qed.

(** X17: [_parseArgValue] answers the argument that follows position
    [index] when there is one and it is not the name of an option, and
    [null] in every other case: at the last argument, and before a name of
    an option. *)
Theorem _parseArgValue_next argv index :
  0 <= index ->
  (forall value,
     _parseArgValue argv index = Some value <->
     argv !! (Z.to_nat index + 1)%nat = Some value /\ value ∉ option_names) /\
  (Z.of_nat (length argv) <= index + 1 -> _parseArgValue argv index = None) /\
  (forall name,
     argv !! (Z.to_nat index + 1)%nat = Some name -> name ∈ option_names ->
     _parseArgValue argv index = None).
Proof.
  intros Hindex. split; [intros value; now apply _parseArgValue_Some|]. split.
  - intros Hlast. destruct (_parseArgValue argv index) as [value|] eqn:E; [|reflexivity].
    apply _parseArgValue_Some in E as [Hnext _]; [|assumption].
    apply lookup_lt_Some in Hnext. lia.
  - intros name Hnext Hname.
    destruct (_parseArgValue argv index) as [value|] eqn:E; [|reflexivity].
    apply _parseArgValue_Some in E as [Hnext' Hno]; [|assumption].
    rewrite Hnext in Hnext'. injection Hnext' as <-. contradiction.
Qed.

Lemma _parseArgValue_next_witness :
  _parseArgValue [str "-i"; str "-c"; str "book.xlsx"] 0 = None.
Proof.
  apply (proj2 (proj2 (_parseArgValue_next [str "-i"; str "-c"; str "book.xlsx"] 0
                         ltac:(lia))) (str "-c")).
  - reflexivity.
  - unfold option_names. in_list.
Defined.

(** ** Command line: parsing the arguments *)

Lemma forEach_from_app {A S} (f : S -> A -> Z -> S) l1 l2 index s :
  forEach_from f (l1 ++ l2) index s =
  forEach_from f l2 (index + Z.of_nat (length l1)) (forEach_from f l1 index s).
Proof.
  revert index s. induction l1 as [|x l1 IH]; intros index s.
  - cbn. now rewrite Z.add_0_r.
  - cbn [app forEach_from length]. rewrite IH. f_equal. lia.
Qed.

(** An argument is a name of at most one option. *)
Lemma input_name_only arg :
  is_option_name Options.input arg = true ->
  is_option_name Options.range arg = false /\
  is_option_name Options.count arg = false.
Proof. intros [-> | ->]%is_option_name_true; split; reflexivity. Qed.

Lemma range_name_only arg :
  is_option_name Options.range arg = true ->
  is_option_name Options.input arg = false /\
  is_option_name Options.count arg = false.
Proof. intros [-> | ->]%is_option_name_true; split; reflexivity. Qed.

Section CommandLineFacts.
Context {num : Type}.
Variable num_zero : num.
Variable toNumber : jsstr -> num.
Variable resolve : jsstr -> jsstr.

Lemma parse_arg_help argv (o : CLIOptions num) arg index :
  opt_help (parse_arg num_zero toNumber resolve argv o arg index) = opt_help o /\
  opt_version (parse_arg num_zero toNumber resolve argv o arg index) = opt_version o.
Proof.
  unfold parse_arg.
  destruct (is_option_name Options.input arg).
  - destruct (_parseArgValue argv index) as [value|]; [|now split].
    case_bool_decide; now split.
  - destruct (is_option_name Options.range arg); [now split|].
    destruct (is_option_name Options.count arg); now split.
Qed.

Lemma parse_arg_count argv (o : CLIOptions num) arg index :
  opt_count (parse_arg num_zero toNumber resolve argv o arg index) =
  opt_count o || is_option_name Options.count arg.
Proof.
  unfold parse_arg.
  destruct (is_option_name Options.input arg) eqn:Hi.
  - destruct (input_name_only arg Hi) as [_ ->]. rewrite orb_false_r.
    destruct (_parseArgValue argv index) as [value|]; [|reflexivity].
    case_bool_decide; reflexivity.
  - destruct (is_option_name Options.range arg) eqn:Hr.
    + destruct (range_name_only arg Hr) as [_ ->]. now rewrite orb_false_r.
    + destruct (is_option_name Options.count arg); cbn;
        [now rewrite orb_true_r | now rewrite orb_false_r].
Qed.

Lemma parse_arg_input_keep argv (o : CLIOptions num) arg index :
  is_option_name Options.input arg = false ->
  opt_input (parse_arg num_zero toNumber resolve argv o arg index) = opt_input o.
Proof.
  intros Hi. unfold parse_arg. rewrite Hi.
  destruct (is_option_name Options.range arg); [reflexivity|].
  now destruct (is_option_name Options.count arg).
Qed.

Lemma parse_arg_range_keep argv (o : CLIOptions num) arg index :
  is_option_name Options.range arg = false ->
  opt_range (parse_arg num_zero toNumber resolve argv o arg index) = opt_range o.
Proof.
  intros Hr. unfold parse_arg. rewrite Hr.
  destruct (is_option_name Options.input arg).
  - destruct (_parseArgValue argv index) as [value|]; [|reflexivity].
    case_bool_decide; reflexivity.
  - now destruct (is_option_name Options.count arg).
Qed.

Lemma forEach_help argv l index (o : CLIOptions num) :
  opt_help (forEach_from (parse_arg num_zero toNumber resolve argv) l index o)
    = opt_help o /\
  opt_version (forEach_from (parse_arg num_zero toNumber resolve argv) l index o)
    = opt_version o.
Proof.
  revert index o. induction l as [|arg l IH]; intros index o; [now split|].
  cbn [forEach_from]. destruct (IH (index + 1) (parse_arg num_zero toNumber resolve argv o arg index)) as [-> ->].
  apply parse_arg_help.
Qed.

Lemma forEach_count argv l index (o : CLIOptions num) :
  opt_count (forEach_from (parse_arg num_zero toNumber resolve argv) l index o) =
  opt_count o || existsb (is_option_name Options.count) l.
Proof.
  revert index o. induction l as [|arg l IH]; intros index o.
  - cbn. now rewrite orb_false_r.
  - cbn [forEach_from existsb]. rewrite IH, parse_arg_count. now rewrite orb_assoc.
Qed.

Lemma forEach_input_keep argv l index (o : CLIOptions num) :
  Forall (fun arg => is_option_name Options.input arg = false) l ->
  opt_input (forEach_from (parse_arg num_zero toNumber resolve argv) l index o)
    = opt_input o.
Proof.
  intros Hl. revert index o. induction Hl as [|arg l Harg _ IH]; intros index o;
    [reflexivity|].
  cbn [forEach_from]. rewrite IH. now apply parse_arg_input_keep.
Qed.

Lemma forEach_range_keep argv l index (o : CLIOptions num) :
  Forall (fun arg => is_option_name Options.range arg = false) l ->
  opt_range (forEach_from (parse_arg num_zero toNumber resolve argv) l index o)
    = opt_range o.
Proof.
  intros Hl. revert index o. induction Hl as [|arg l Harg _ IH]; intros index o;
    [reflexivity|].
  cbn [forEach_from]. rewrite IH. now apply parse_arg_range_keep.
Qed.

(** What [_parseArgv] does to the options after the loop. *)
Lemma _parseArgv_fields argv :
  let options := forEach_from (parse_arg num_zero toNumber resolve argv) argv 0 no_options in
  let result := _parseArgv num_zero toNumber resolve argv in
  opt_help result = opt_help options /\
  opt_version result = opt_version options /\
  opt_input result = opt_input options /\
  opt_count result = opt_count options /\
  opt_range result =
    (if opt_count options then None
     else match opt_range options with
          | Some r => Some r
          | None => Some {| range_begin := num_zero; range_end := num_zero |}
          end).
Proof.
  cbv zeta. unfold _parseArgv. cbv zeta.
  destruct (opt_count _) eqn:Hc; destruct (opt_range _) as [r|] eqn:Hr;
    cbn; rewrite ?Hc, ?Hr; repeat split; reflexivity.
Qed.

Lemma parseArgv_starts_with_no_help args :
  starts_with_no_help args ->
  parseArgv num_zero toNumber resolve (Some args) =
  _parseArgv num_zero toNumber resolve args.
Proof.
  intros (first & rest & -> & Hh & Hv). unfold parseArgv.
  cbn [length]. replace (0 <? Z.of_nat (S (length rest))) with true
    by (symmetry; apply Z.ltb_lt; lia).
  change (js_index (first :: rest) 0) with (Some first). cbv beta iota.
  now rewrite Hh, Hv.
Qed.

(** X18: [parseArgv] looks for [help] and [version] in the first argument
    only.  Without arguments ([null] or an empty array) the answer is
    [{ help: true }]; when the first argument is [-h] or [--help] it is
    [{ help: true }] and when it is [-v] or [--version] it is
    [{ version: true }], whatever follows; in every other case neither
    [help] nor [version] is set, also when one of these names comes
    later. *)
Theorem parseArgv_help_version_first :
  parseArgv num_zero toNumber resolve None = help_only /\
  parseArgv num_zero toNumber resolve (Some []) = help_only /\
  (forall first rest,
     is_option_name Options.help first = true ->
     parseArgv num_zero toNumber resolve (Some (first :: rest)) = help_only) /\
  (forall first rest,
     is_option_name Options.version first = true ->
     parseArgv num_zero toNumber resolve (Some (first :: rest)) = version_only) /\
  (forall args,
     starts_with_no_help args ->
     opt_help (parseArgv num_zero toNumber resolve (Some args)) = false /\
     opt_version (parseArgv num_zero toNumber resolve (Some args)) = false).
Proof.
  split; [reflexivity|]. split; [reflexivity|].
  assert (forall (first : jsstr) rest,
            (0 <? Z.of_nat (length (first :: rest))) = true) as Hlen.
  { intros first rest. apply Z.ltb_lt. cbn [length]. lia. }
  split.
  { intros first rest Hh. unfold parseArgv. rewrite Hlen.
    change (js_index (first :: rest) 0) with (Some first). cbv beta iota.
    now rewrite Hh. }
  split.
  { intros first rest Hv. unfold parseArgv. rewrite Hlen.
    change (js_index (first :: rest) 0) with (Some first). cbv beta iota.
    destruct (is_option_name Options.help first) eqn:Hh; [|now rewrite Hv].
    apply is_option_name_true in Hh. apply is_option_name_true in Hv.
    destruct Hh as [-> | ->], Hv as [Hv | Hv]; discriminate Hv. }
  intros args Hargs. rewrite parseArgv_starts_with_no_help by assumption.
  destruct (_parseArgv_fields args) as (-> & -> & _).
  apply forEach_help.
Qed.
(** X19: [-c] or [--count] anywhere among the arguments sets [count] and
    leaves [range] undefined, whatever [-r] says; without it [count] is
    not set and [range] is always defined. *)
Theorem parseArgv_count_overrides_range args :
  starts_with_no_help args ->
  let options := parseArgv num_zero toNumber resolve (Some args) in
  (opt_count options = true <->
   exists arg, arg ∈ args /\ (arg = str "-c" \/ arg = str "--count")) /\
  (opt_count options = true -> opt_range options = None) /\
  (opt_count options = false -> exists r, opt_range options = Some r).
Proof.
  intros Hargs. cbv zeta. rewrite parseArgv_starts_with_no_help by assumption.
  destruct (_parseArgv_fields args) as (_ & _ & _ & Hcount & Hrange).
  rewrite Hcount, Hrange. clear Hcount Hrange.
  rewrite forEach_count. cbn [opt_count no_options orb].
  split.
  { rewrite existsb_exists. split.
    - intros (arg & Hin & Hname). exists arg. split; [now apply list_elem_of_In|].
      now apply is_option_name_true in Hname.
    - intros (arg & Hin & Hname). exists arg. split; [now apply list_elem_of_In|].
      now apply is_option_name_true. }
  destruct (existsb (is_option_name Options.count) args).
  - split; [reflexivity | discriminate].
  - split; [discriminate|]. intros _.
    destruct (opt_range _) as [r|]; eexists; reflexivity.
Qed.

Lemma _parseRange_two a b :
  45%N ∉ a ->
  _parseRange num_zero toNumber (Some (a ++ 45%N :: b)) =
  {| range_begin := toNumber a;
     range_end := toNumber (unit_at (split_on 45%N b) 0) |}.
Proof.
  intros Ha. unfold _parseRange. cbv zeta. rewrite split_on_first by assumption.
  destruct (split_on 45%N b) as [|b0 pieces] eqn:Eb.
  - destruct b; cbn in Eb; [discriminate|].
    destruct (n =? 45)%N; [discriminate|]. destruct (split_on 45%N b); discriminate.
  - cbn [length].
    replace (1 <? Z.of_nat (S (S (length pieces)))) with true
      by (symmetry; apply Z.ltb_lt; lia).
    reflexivity.
Qed.

(** X20: [_parseRange] cuts its text at the dashes: without a dash both ends
    are [Number] of the text; with dashes the begin is [Number] of what
    stands before the first dash and the end is [Number] of what stands
    between the first and the second, and what follows a second dash is not
    read; so a text that starts with a dash has [Number] of the empty string
    as its begin.  [null] gives [{ begin: 0, end: 0 }]. *)
Theorem _parseRange_shapes :
  _parseRange num_zero toNumber None =
    {| range_begin := num_zero; range_end := num_zero |} /\
  (forall a,
     45%N ∉ a ->
     _parseRange num_zero toNumber (Some a) =
     {| range_begin := toNumber a; range_end := toNumber a |}) /\
  (forall a b,
     45%N ∉ a -> 45%N ∉ b ->
     _parseRange num_zero toNumber (Some (a ++ str "-" ++ b)) =
     {| range_begin := toNumber a; range_end := toNumber b |}) /\
  (forall a b rest,
     45%N ∉ a -> 45%N ∉ b ->
     _parseRange num_zero toNumber (Some (a ++ str "-" ++ b ++ str "-" ++ rest)) =
     {| range_begin := toNumber a; range_end := toNumber b |}) /\
  (forall b,
     45%N ∉ b ->
     _parseRange num_zero toNumber (Some (str "-" ++ b)) =
     {| range_begin := toNumber (str ""); range_end := toNumber b |}).
Proof.
  split; [reflexivity|]. split.
  { intros a Ha. unfold _parseRange. cbv zeta. now rewrite split_on_absent. }
  assert (forall a b,
     45%N ∉ a -> 45%N ∉ b ->
     _parseRange num_zero toNumber (Some (a ++ str "-" ++ b)) =
     {| range_begin := toNumber a; range_end := toNumber b |}) as Htwo.
  { intros a b Ha Hb. change (str "-" ++ b) with (45%N :: b).
    rewrite _parseRange_two by assumption. now rewrite split_on_absent. }
  split; [exact Htwo|]. split.
  - intros a b rest Ha Hb.
    change (str "-" ++ b ++ str "-" ++ rest) with (45%N :: b ++ 45%N :: rest).
    rewrite _parseRange_two by assumption. now rewrite split_on_first.
  - intros b Hb. apply (Htwo [] b); [apply not_elem_of_nil | assumption].
Qed.

(** The argument after position [length before] is what [_parseArgValue]
    reads there. *)
Lemma _parseArgValue_after (before : list jsstr) flag after :
  _parseArgValue (before ++ flag :: after) (Z.of_nat (length before)) =
  match after with
  | value :: _ => if _isValue value then Some value else None
  | [] => None
  end.
Proof.
  unfold _parseArgValue. rewrite length_app. cbn [length].
  rewrite js_index_nat by lia.
  replace (Z.to_nat (Z.of_nat (length before) + 1)) with (length before + 1)%nat by lia.
  rewrite lookup_app_r by lia.
  replace (length before + 1 - length before)%nat with 1%nat by lia.
  destruct after as [|value after]; cbn [lookup list_lookup length].
  - destruct (Z.ltb_spec (Z.of_nat (length before) + 1)
                (Z.of_nat (length before + 1))); [lia | reflexivity].
  - destruct (Z.ltb_spec (Z.of_nat (length before) + 1)
                (Z.of_nat (length before + S (S (length after))))); [reflexivity | lia].
Qed.

(** X21: the input is taken from the last [-i] or [--input]: when it is
    followed by an argument that is not the name of an option and not
    empty, and no [-i] or [--input] comes later, [input] is [Path.resolve]
    of that argument; without any [-i] or [--input], [input] is not set. *)
Theorem parseArgv_last_input :
  (forall before flag value after,
     starts_with_no_help (before ++ flag :: value :: after) ->
     is_option_name Options.input flag = true ->
     value ∉ option_names -> value <> [] ->
     Forall (fun arg => is_option_name Options.input arg = false) after ->
     opt_input (parseArgv num_zero toNumber resolve
                  (Some (before ++ flag :: value :: after)))
     = Some (resolve value)) /\
  (forall args,
     starts_with_no_help args ->
     Forall (fun arg => is_option_name Options.input arg = false) args ->
     opt_input (parseArgv num_zero toNumber resolve (Some args)) = None).
Proof.
  split.
  - intros before flag value after Hargs Hflag Hvalue Hne Hafter.
    rewrite parseArgv_starts_with_no_help by assumption.
    destruct (_parseArgv_fields (before ++ flag :: value :: after)) as (_ & _ & -> & _).
    rewrite forEach_from_app. cbn [forEach_from].
    assert (is_option_name Options.input value = false) as Hvi.
    { destruct (is_option_name Options.input value) eqn:E; [|reflexivity].
      exfalso. apply Hvalue. apply option_names_keys. exists Options.input.
      split; [unfold Options.keys; in_list | assumption]. }
    rewrite forEach_input_keep by assumption.
    rewrite parse_arg_input_keep by assumption.
    unfold parse_arg at 1. rewrite Hflag, Z.add_0_l, _parseArgValue_after.
    apply _isValue_true in Hvalue. rewrite Hvalue.
    now rewrite bool_decide_eq_false_2.
  - intros args Hargs Hnone.
    rewrite parseArgv_starts_with_no_help by assumption.
    destruct (_parseArgv_fields args) as (_ & _ & -> & _).
    now rewrite forEach_input_keep.
Qed.

(** X22: without [-c] and [--count], the range is taken from the last [-r]
    or [--range]: it is [_parseRange] of the argument that follows when
    this is not the name of an option, and [{ begin: 0, end: 0 }] when
    nothing or the name of an option follows; without any [-r] or
    [--range] it is [{ begin: 0, end: 0 }] too. *)
Theorem parseArgv_last_range :
  (forall before flag after,
     starts_with_no_help (before ++ flag :: after) ->
     is_option_name Options.range flag = true ->
     Forall (fun arg => is_option_name Options.range arg = false) after ->
     Forall (fun arg => is_option_name Options.count arg = false)
       (before ++ flag :: after) ->
     opt_range (parseArgv num_zero toNumber resolve (Some (before ++ flag :: after)))
     = Some (match after with
             | value :: _ =>
                 if _isValue value then _parseRange num_zero toNumber (Some value)
                 else {| range_begin := num_zero; range_end := num_zero |}
             | [] => {| range_begin := num_zero; range_end := num_zero |}
             end)) /\
  (forall args,
     starts_with_no_help args ->
     Forall (fun arg => is_option_name Options.range arg = false) args ->
     Forall (fun arg => is_option_name Options.count arg = false) args ->
     opt_range (parseArgv num_zero toNumber resolve (Some args))
     = Some {| range_begin := num_zero; range_end := num_zero |}).
Proof.
  assert (forall args,
            Forall (fun arg => is_option_name Options.count arg = false) args ->
            existsb (is_option_name Options.count) args = false) as Hnocount.
  { intros args H. induction H as [|arg args Harg _ IH]; [reflexivity|].
    cbn [existsb]. now rewrite Harg, IH. }
  split.
  - intros before flag after Hargs Hflag Hafter Hcount.
    rewrite parseArgv_starts_with_no_help by assumption.
    destruct (_parseArgv_fields (before ++ flag :: after)) as (_ & _ & _ & _ & ->).
    rewrite forEach_count, (Hnocount _ Hcount). cbn [opt_count no_options orb].
    rewrite forEach_from_app. cbn [forEach_from].
    rewrite forEach_range_keep by assumption.
    destruct (range_name_only flag Hflag) as [Hi _].
    unfold parse_arg at 1. rewrite Hi, Hflag, Z.add_0_l, _parseArgValue_after.
    cbn [opt_range set_range].
    destruct after as [|value after]; [reflexivity|].
    now destruct (_isValue value).
  - intros args Hargs Hnone Hcount.
    rewrite parseArgv_starts_with_no_help by assumption.
    destruct (_parseArgv_fields args) as (_ & _ & _ & _ & ->).
    rewrite forEach_count, (Hnocount _ Hcount). cbn [opt_count no_options orb].
    now rewrite forEach_range_keep.
Qed.
End CommandLineFacts.


Lemma parseArgv_help_version_first_witness :
  opt_help (parseArgv 0 parseInt10 (fun path => path)
              (Some [str "-i"; str "book.xlsx"; str "--help"])) = false /\
  opt_version (parseArgv 0 parseInt10 (fun path => path)
                 (Some [str "-i"; str "book.xlsx"; str "--help"])) = false.
Proof.
  apply (proj2 (proj2 (proj2 (proj2
           (parseArgv_help_version_first 0 parseInt10 (fun path => path)))))).
  exists (str "-i"), [str "book.xlsx"; str "--help"]. repeat split.
Defined.

Lemma parseArgv_count_overrides_range_witness :
  let options := parseArgv 0 parseInt10 (fun path => path)
                   (Some [str "-r"; str "1-5"; str "-c"]) in
  (opt_count options = true <->
   exists arg, arg ∈ [str "-r"; str "1-5"; str "-c"] /\
               (arg = str "-c" \/ arg = str "--count")) /\
  (opt_count options = true -> opt_range options = None) /\
  (opt_count options = false -> exists r, opt_range options = Some r).
Proof.
  apply (parseArgv_count_overrides_range 0 parseInt10 (fun path => path)).
  exists (str "-r"), [str "1-5"; str "-c"]. repeat split.
Defined.

Lemma _parseRange_shapes_witness :
  _parseRange 0 parseInt10 (Some (str "1" ++ str "-" ++ str "5")) =
  {| range_begin := parseInt10 (str "1"); range_end := parseInt10 (str "5") |}.
Proof.
  apply (proj1 (proj2 (proj2 (_parseRange_shapes 0 parseInt10))));
    intros H; repeat (apply elem_of_cons in H as [H|H]; [discriminate|]);
    now apply elem_of_nil in H.
Defined.

Lemma parseArgv_last_input_witness :
  opt_input (parseArgv 0 parseInt10 (fun path => str "/work/" ++ path)
               (Some ([str "-i"; str "old.xlsx"] ++
                      str "--input" :: str "new.xlsx" :: [str "-c"])))
  = Some (str "/work/" ++ str "new.xlsx").
Proof.
  apply (proj1 (parseArgv_last_input 0 parseInt10 (fun path => str "/work/" ++ path))).
  - exists (str "-i"), [str "old.xlsx"; str "--input"; str "new.xlsx"; str "-c"].
    repeat split.
  - reflexivity.
  - intros H. unfold option_names in H.
    repeat (apply elem_of_cons in H as [H|H]; [discriminate|]).
    now apply elem_of_nil in H.
  - discriminate.
  - repeat constructor.
Defined.

Lemma parseArgv_last_range_witness :
  opt_range (parseArgv 0 parseInt10 (fun path => path)
               (Some ([str "-i"; str "book.xlsx"] ++ str "-r" :: [str "2-4"])))
  = Some (if _isValue (str "2-4") then _parseRange 0 parseInt10 (Some (str "2-4"))
          else {| range_begin := 0; range_end := 0 |}).
Proof.
  apply (proj1 (parseArgv_last_range 0 parseInt10 (fun path => path))
           [str "-i"; str "book.xlsx"] (str "-r") [str "2-4"]).
  - exists (str "-i"), [str "book.xlsx"; str "-r"; str "2-4"]. repeat split.
  - reflexivity.
  - repeat constructor.
  - repeat constructor.
Defined.

(** ** numOfColumn: a text without a letter *)







